(** * Lyric timeline and spectrum peak model of the local music player

    The file embeds the lyric synchronisation code (the timeline loop of
    [parseLrc] in [App.tsx], [normalizeLyrics], the active-line lookup and
    the per-character fill of [LyricsView]) and the alpha / peak-hold parts
    of the [Spectrum] draw tick; then the reading of LRC text, the memo
    comparator of the rows, the band energies, bars, colours, rain, rockets,
    particles and glows of [Spectrum], the blobs of [Visualizer], and the
    time display, progress bar and animation loop of [App].

    JavaScript numbers are modelled as exact rationals ([Q]); an optional
    field ([duration?: number]) is an [option Q].  Rounding of binary
    floating point is outside the model. *)

From Stdlib Require Import QArith Qminmax Qpower Qround Qabs Lqa ZArith Lia.
From Stdlib.Strings Require Import Byte Ascii.
From stdpp Require Import base list strings pretty.

Local Open Scope Q_scope.

(** ** JavaScript number helpers *)

(** [a || b] on an optional number: [undefined] and [0] are falsy. *)
Definition js_or (d : option Q) (dflt : Q) : Q :=
  match d with
  | Some q => if Qeq_bool q 0 then dflt else q
  | None => dflt
  end.

(** [x <= y] and [x < y] as booleans. *)
Definition Qleb (x y : Q) : bool := Qle_bool x y.
Definition Qltb (x y : Q) : bool := negb (Qle_bool y x).

(** ** Lyric lines ([interface LyricLine]) *)

Record LyricLine := mkLine {
  time : Q;
  text : string;
  duration : option Q
}.

(** The pairs [{ time, text }] collected by the first loop of [parseLrc]. *)
Record TempLine := mkTemp {
  t_time : Q;
  t_text : string
}.

(** ** [parseLrc]: the timeline loop over [tempLyrics] *)

Definition DOTS : string := "•••".

(** One iteration of the [for] loop: the lines pushed for [tempLyrics[i]],
    given [tempLyrics[i + 1]] when it exists. *)
Definition parseLrc_push (line : TempLine) (nextLine : option TempLine)
  : list LyricLine :=
  let timeDiff :=
    match nextLine with
    | Some n => t_time n - t_time line
    | None => 5
    end in
  if Qltb 10 timeDiff then
    [ mkLine (t_time line) (t_text line) (Some (timeDiff - 2));
      mkLine (t_time line + (timeDiff - 2)) DOTS (Some 2) ]
  else
    [ mkLine (t_time line) (t_text line) (Some timeDiff) ].

Fixpoint parseLrc_loop (tempLyrics : list TempLine) : list LyricLine :=
  match tempLyrics with
  | [] => []
  | line :: rest => parseLrc_push line (head rest) ++ parseLrc_loop rest
  end.

(** ** [normalizeLyrics] *)

Definition MIN_DURATION : Q := 2.
Definition LAST_DEFAULT : Q := 5.

(** The callback of [lyrics.map((line, i) => ...)]. *)
Definition normalizeLine (lyrics : list LyricLine) (i : nat) (line : LyricLine)
  : LyricLine :=
  if Nat.eqb i (length lyrics - 1) then
    mkLine (time line) (text line) (Some (js_or (duration line) LAST_DEFAULT))
  else
    match lyrics !! (i + 1)%nat with
    | Some next =>
        let d := time next - time line in
        let d' := if Qeq_bool d 0 || Qleb d (1 # 10) then MIN_DURATION else d in
        mkLine (time line) (text line) (Some d')
    | None => line
    end.

Definition normalizeLyrics (lyrics : list LyricLine) : list LyricLine :=
  imap (normalizeLine lyrics) lyrics.

(** The duration [normalizeLine] gives to a line followed by [n]. *)
Definition inner_duration (l n : LyricLine) : Q :=
  let d := time n - time l in
  if Qeq_bool d 0 || Qleb d (1 # 10) then MIN_DURATION else d.

(** ** [LyricsView]: active line and row props *)

(** The predicate passed to [findIndex]. *)
Definition in_interval (currentTime : Q) (l : LyricLine) : bool :=
  Qleb (time l) currentTime && Qltb currentTime (time l + js_or (duration l) 3).

(** [Array.prototype.findIndex]: the first index whose element satisfies
    the predicate, [-1] when there is none. *)
Fixpoint findIndex_from {A} (p : A -> bool) (l : list A) (i : Z) : Z :=
  match l with
  | [] => (-1)%Z
  | x :: rest => if p x then i else findIndex_from p rest (i + 1)%Z
  end.

Definition findIndex {A} (p : A -> bool) (l : list A) : Z :=
  findIndex_from p l 0%Z.

Definition activeIndex (fixedLyrics : list LyricLine) (currentTime : Q) : Z :=
  findIndex (in_interval currentTime) fixedLyrics.

(** The props handed to [LyricLineRow] for line [i]. *)
Record RowProps := mkRow {
  line : LyricLine;
  isActive : bool;
  isPast : bool;
  distance : Z;
  rowTime : Q
}.

Definition rowProps (active : Z) (currentTime : Q) (i : nat) (l : LyricLine)
  : RowProps :=
  let iz := Z.of_nat i in
  mkRow l (Z.eqb iz active) (Z.ltb iz active) (Z.abs (iz - active))
        (if Z.eqb iz active then currentTime else 0).

(** What [LyricsView] renders: the rows of the normalized lyrics. *)
Definition LyricsView_rows (lyrics : list LyricLine) (currentTime : Q)
  : list RowProps :=
  let fixedLyrics := normalizeLyrics lyrics in
  imap (rowProps (activeIndex fixedLyrics currentTime) currentTime) fixedLyrics.

(** ** [LyricLineRow] *)

Definition blur (r : RowProps) : Q :=
  if isActive r then 0 else Qmin 8 (inject_Z (distance r) * 1.5).

Definition scale (r : RowProps) : Q :=
  if isActive r then 1.05 else Qmax 0.85 (1 - inject_Z (distance r) * 0.05).

(** Tint and opacity of the inactive branch. *)
Inductive Tint := FillColor | White.

Definition inactive_color (r : RowProps) : Tint :=
  if isPast r then FillColor else White.

Definition inactive_opacity (r : RowProps) : Q :=
  if isPast r then 0.6 else 0.3.

(** The active branch. *)
Definition elapsed (r : RowProps) : Q := Qmax 0 (rowTime r - time (line r)).

Definition fillDuration (r : RowProps) : Q :=
  Qmax 0.5 (js_or (duration (line r)) 3 * 0.85).

Definition progress (r : RowProps) : Q :=
  Qmin 1 (elapsed r / fillDuration r).





(** ** [Spectrum]: peak hold *)

(** Lines 376-381 of the draw tick: the update of [peaksRef.current[i]]. *)
Definition peak_update (barHeight peak : Q) : Q :=
  if Qltb peak barHeight then barHeight else peak * 0.95 - 0.5.

(** The peak indicator is painted only above the threshold. *)
Definition peak_visible (peak : Q) : bool := Qltb 5 peak.

(** The stored peak after a run of frames with the given bar heights. *)
Definition peak_run (heights : list Q) (peak0 : Q) : Q :=
  fold_left (fun p h => peak_update h p) heights peak0.

(** Bar height of bar [i]; [pw] stands for [Math.pow(percent, 1.4)]. *)
Definition boost (i : nat) : Q :=
  1 + (if Nat.ltb i 10 then 0.3 else 0) + (if Nat.ltb 50 i then 0.5 else 0).

Definition barHeight (pw height : Q) (i : nat) : Q :=
  Qmax 2 (pw * height * 0.45 * boost i).

(** A bar of height [H] for one frame, then [k] frames of height [0]. *)
Definition drop_heights (H : Q) (k : nat) : list Q := H :: repeat 0 k.

(** The closed form of [k] decay steps from [H]: each step multiplies by
    [0.95] and then subtracts [0.5]. *)
Definition decayed (H : Q) (k : nat) : Q :=
  H * 0.95 ^ Z.of_nat k - 10 * (1 - 0.95 ^ Z.of_nat k).

(** ** [Spectrum]: global alpha of the draw tick *)

Inductive Layer :=
  LRain | LRocket | LParticle | LBokeh | LBar | LReflection | LPeak.

(** A [fill] / [stroke]: its layer, the opacity of the drawn entity itself
    ([p.alpha] for particles and glows, [1] elsewhere) and the
    [globalAlpha] in effect. *)
Record DrawCall := mkCall {
  layer : Layer;
  own_alpha : Q;
  effective_alpha : Q
}.

Record Ctx := mkCtx {
  globalAlpha : Q;
  calls : list DrawCall
}.

(** The [globalAlpha] setter of the 2D canvas: a value outside [0, 1]
    is ignored and the attribute keeps its former value. *)
Definition set_globalAlpha (v : Q) (ctx : Ctx) : Ctx :=
  if Qleb 0 v && Qleb v 1 then mkCtx v (calls ctx) else ctx.

Definition paint (l : Layer) (own : Q) (ctx : Ctx) : Ctx :=
  mkCtx (globalAlpha ctx) (calls ctx ++ [mkCall l own (globalAlpha ctx)]).

Record FireworkRocket := mkRocket {
  r_x : Q; r_y : Q; r_targetY : Q; r_vy : Q
}.

Record FireworkParticle := mkParticle {
  p_x : Q; p_y : Q; p_vx : Q; p_vy : Q; p_alpha : Q
}.

Record Sparkle := mkSparkle {
  s_x : Q; s_y : Q; s_size : Q; s_alpha : Q; s_life : Q; s_maxLife : Q
}.

(** The props and per-tick inputs of the draw closure.  [spawnRocket] and
    [spawnSparkle] carry the entity pushed when [isPlaying] holds and the
    [Math.random()] test passes; [spark j] is the velocity
    [(cos angle * speed, sin angle * speed)] of the [j]-th particle of an
    explosion; [barHeights] are the 64 bar heights of the tick. *)
Record Frame := mkFrame {
  brightness : Q;
  enableRain : bool;
  enableFireworks : bool;
  enableBokeh : bool;
  normHigh : Q;
  spawnRocket : option FireworkRocket;
  spawnSparkle : option Sparkle;
  spark : nat -> Q * Q;
  barHeights : list Q
}.

(** The refs that live across ticks. *)
Record Refs := mkRefs {
  rockets : list FireworkRocket;
  particles : list FireworkParticle;
  sparkles : list Sparkle;
  peaks : list Q
}.

Definition particleCount : nat := 40.

Definition explode (f : Frame) (r : FireworkRocket) : list FireworkParticle :=
  map (fun j => mkParticle (r_x r) (r_y r) (fst (spark f j)) (snd (spark f j)) 1)
      (seq 0 particleCount).

(** "Update Rockets": the loop runs from the last index down. *)
Fixpoint rockets_loop (f : Frame) (rs : list FireworkRocket)
  (st : Ctx * list FireworkParticle)
  : list FireworkRocket * (Ctx * list FireworkParticle) :=
  match rs with
  | [] => ([], st)
  | r :: rest =>
      let '(rest', (ctx, ps)) := rockets_loop f rest st in
      let r' := mkRocket (r_x r) (r_y r + r_vy r) (r_targetY r) (r_vy r + 0.2) in
      let ctx := paint LRocket 1 ctx in
      if Qleb (-2) (r_vy r') || Qleb (r_y r') (r_targetY r')
      then (rest', (ctx, ps ++ explode f r'))
      else (r' :: rest', (ctx, ps))
  end.

(** "Update Particles". *)
Fixpoint particles_loop (f : Frame) (ps : list FireworkParticle) (ctx : Ctx)
  : list FireworkParticle * Ctx :=
  match ps with
  | [] => ([], ctx)
  | p :: rest =>
      let '(rest', ctx) := particles_loop f rest ctx in
      let p' := mkParticle (p_x p + p_vx p) (p_y p + p_vy p) (p_vx p)
                           (p_vy p + 0.15) (p_alpha p - 0.015) in
      if Qleb (p_alpha p') 0 then (rest', ctx)
      else
        let ctx := set_globalAlpha (p_alpha p' * brightness f) ctx in
        let ctx := paint LParticle (p_alpha p') ctx in
        let ctx := set_globalAlpha (brightness f) ctx in
        (p' :: rest', ctx)
  end.

(** "Bokeh / Sparkles": the draw loop. *)
Definition sparkle_age (f : Frame) (p : Sparkle) : Sparkle :=
  let life := s_life p + 1 in
  let alpha :=
    if Qltb life 30 then (life / 30) * (0.3 + normHigh f * 0.4)
    else if Qltb (s_maxLife p - 30) life
         then ((s_maxLife p - life) / 30) * (0.3 + normHigh f * 0.4)
         else s_alpha p in
  mkSparkle (s_x p) (s_y p) (s_size p) alpha life (s_maxLife p).

Fixpoint sparkles_loop (f : Frame) (ss : list Sparkle) (ctx : Ctx)
  : list Sparkle * Ctx :=
  match ss with
  | [] => ([], ctx)
  | p :: rest =>
      let '(rest', ctx) := sparkles_loop f rest ctx in
      let p' := sparkle_age f p in
      if Qleb (s_maxLife p') (s_life p') then (rest', ctx)
      else
        let ctx := set_globalAlpha (s_alpha p' * brightness f) ctx in
        let ctx := paint LBokeh (s_alpha p') ctx in
        let ctx := set_globalAlpha (brightness f) ctx in
        (p' :: rest', ctx)
  end.

(** "Spectrum Bars": one iteration for bar [i]. *)
Definition barsToRender : nat := 64.

Definition bar_step (f : Frame) (st : Ctx * list Q) (i : nat) : Ctx * list Q :=
  let '(ctx, pk) := st in
  let h := default 0 (barHeights f !! i) in
  let ctx := paint LBar 1 ctx in
  let ctx := paint LReflection 1 ctx in
  let peak := peak_update h (default 0 (pk !! i)) in
  let pk := <[i := peak]> pk in
  if peak_visible peak then (paint LPeak 1 ctx, pk) else (ctx, pk).

(** One run of [draw]: the refs after the tick and the canvas with the
    calls it received.  The canvas enters every tick with [globalAlpha = 1]
    (its initial value, restored by the last statement of [draw]). *)
Definition draw (f : Frame) (refs : Refs) : Refs * Ctx :=
  let ctx := mkCtx 1 [] in
  let ctx := set_globalAlpha (Qmin 1 (Qmax 0 (brightness f))) ctx in
  let ctx := if enableRain f then paint LRain 1 ctx else ctx in
  let '(rs, ps, ctx) :=
    if enableFireworks f then
      let rs := match spawnRocket f with
                | Some r => rockets refs ++ [r]
                | None => rockets refs
                end in
      let '(rs, (ctx, ps)) := rockets_loop f rs (ctx, particles refs) in
      let '(ps, ctx) := particles_loop f ps ctx in
      (rs, ps, ctx)
    else (rockets refs, particles refs, ctx) in
  let '(ss, ctx) :=
    if enableBokeh f then
      let ss := match spawnSparkle f with
                | Some p => sparkles refs ++ [p]
                | None => sparkles refs
                end in
      sparkles_loop f ss ctx
    else (sparkles refs, ctx) in
  let '(ctx, pk) := fold_left (bar_step f) (seq 0 barsToRender) (ctx, peaks refs) in
  let ctx := set_globalAlpha 1 ctx in
  (mkRefs rs ps ss pk, ctx).

(** The brightness multiplier of the compositing setup. *)
Definition clamp01 (b : Q) : Q := Qmin 1 (Qmax 0 b).

(** A draw call is scaled by the clamped brightness when its global alpha
    is its own opacity times [clamp01 brightness]. *)
Definition scaled_by_brightness (b : Q) (c : DrawCall) : bool :=
  Qeq_bool (effective_alpha c) (own_alpha c * clamp01 b).

Definition uniformly_scaled (f : Frame) (refs : Refs) : bool :=
  forallb (scaled_by_brightness (brightness f)) (calls (snd (draw f refs))).

(** The state of the canvas while a tick runs under brightness [b]: the
    global alpha is [b] and every call so far was scaled by [b]. *)
Definition scaled (b : Q) (c : DrawCall) : Prop :=
  effective_alpha c == own_alpha c * b.

Definition alpha_inv (b : Q) (ctx : Ctx) : Prop :=
  globalAlpha ctx == b /\ Forall (scaled b) (calls ctx).

(** Opacities as the tick leaves them: a firework particle starts at 1 and
    fades, a glow ramps between 0 and 0.7 from a life of 0 on. *)
Definition particle_ok (p : FireworkParticle) : Prop := p_alpha p <= 1.

Definition sparkle_ok (p : Sparkle) : Prop :=
  0 <= s_alpha p /\ s_alpha p <= 1 /\ 0 <= s_life p.

Definition refs_ok (refs : Refs) : Prop :=
  Forall particle_ok (particles refs) /\ Forall sparkle_ok (sparkles refs).

Definition frame_ok (f : Frame) : Prop :=
  0 <= normHigh f /\ normHigh f <= 1 /\
  (forall p, spawnSparkle f = Some p -> sparkle_ok p).

(** ** Timeline predicates *)




(** [T] lies in the interval [[start, start + duration)] of the line. *)
Definition contains (T : Q) (l : LyricLine) : Prop :=
  exists d, duration l = Some d /\ time l <= T /\ T < time l + d.




(** ** Relations between timelines *)

(** What identifies a line for the reader: its start and its text. *)
Definition key (l : LyricLine) : Q * string := (time l, text l).
Definition temp_key (t : TempLine) : Q * string := (t_time t, t_text t).

(** The synthetic line pushed after a long gap. *)
Definition is_marker (l : LyricLine) : Prop :=
  text l = DOTS /\ duration l = Some 2.

Definition from_input (temp : list TempLine) (l : LyricLine) : Prop :=
  exists t, t ∈ temp /\ key l = temp_key t.




(** ** The lyric offset ([App]) *)

(** [adjustOffset]: the state update [prev => prev + amount]. *)
Definition adjustOffset (prev amount : Q) : Q := prev + amount.

(** The time handed to [LyricsView]: [currentTime + lyricsOffset]. *)
Definition effectiveTime (currentTime lyricsOffset : Q) : Q :=
  currentTime + lyricsOffset.

(** A line moved by [delta] seconds. *)
Definition shift (delta : Q) (l : LyricLine) : LyricLine :=
  mkLine (time l + delta) (text l) (duration l).

(** ** The memo comparator of [LyricLineRow] *)

(** The props the comparator reads besides those of [RowProps]. *)
Record RowView := mkView {
  props : RowProps;
  fillColor : string;
  fontSizeScale : Q
}.

Definition LyricsView_views (lyrics : list LyricLine) (currentTime : Q)
  (fill : string) (font : Q) : list RowView :=
  (fun r => mkView r fill font) <$> LyricsView_rows lyrics currentTime.

(** The second argument of [memo]: [true] skips the re-render. *)
Definition areEqual (prev next : RowView) : bool :=
  if negb (Bool.eqb (isActive (props prev)) (isActive (props next))) then false
  else if isActive (props prev) && isActive (props next) then
    Qeq_bool (rowTime (props prev)) (rowTime (props next))
  else
    Bool.eqb (isPast (props prev)) (isPast (props next)) &&
    Z.eqb (distance (props prev)) (distance (props next)) &&
    String.eqb (fillColor prev) (fillColor next) &&
    Qeq_bool (fontSizeScale prev) (fontSizeScale next).



(** ** [Spectrum]: band energies *)

(** [dataArray[i]] of the [Uint8Array]: a byte, or [undefined] past the end
    (the sum then turns into [NaN], modelled as [None]). *)
Definition bin (dataArray : list Byte.byte) (i : nat) : option Q :=
  (fun b => inject_Z (Z.of_N (Byte.to_N b))) <$> dataArray !! i.

(** [for (let i = lo; i < hi; i++) energy += dataArray[i]], from 0. *)
Definition band_sum (dataArray : list Byte.byte) (lo hi : nat) : option Q :=
  fold_left (fun acc i =>
               match acc, bin dataArray i with
               | Some a, Some v => Some (a + v)
               | _, _ => None
               end)
            (seq lo (hi - lo)) (Some 0).

(** The band average, [0] when nothing plays, divided by 255. *)
Definition band_norm (isPlaying : bool) (dataArray : list Byte.byte)
  (lo hi : nat) : option Q :=
  if isPlaying then
    (fun s => s / inject_Z (Z.of_nat (hi - lo)) / 255) <$> band_sum dataArray lo hi
  else Some (0 / 255).

Definition normBass_of (isPlaying : bool) (dataArray : list Byte.byte) :=
  band_norm isPlaying dataArray 0 8.
Definition normMid_of (isPlaying : bool) (dataArray : list Byte.byte) :=
  band_norm isPlaying dataArray 20 80.
Definition normHigh_of (isPlaying : bool) (dataArray : list Byte.byte) :=
  band_norm isPlaying dataArray 80 150.

(** The thresholds [Math.random()] is compared with to launch a rocket and
    to spawn a glow. *)
Definition rocket_chance (normBass : Q) : Q := 0.01 + normBass * 0.08.
Definition sparkle_chance (normMid : Q) : Q := normMid * 0.4.

(** ** [Spectrum]: the loops over several ticks *)

(** [k] ticks of "Update Particles" with no new explosion. *)
Fixpoint particles_ticks (f : Frame) (k : nat) (ps : list FireworkParticle)
  (ctx : Ctx) : list FireworkParticle * Ctx :=
  match k with
  | O => (ps, ctx)
  | S k => let '(ps', ctx') := particles_loop f ps ctx in
           particles_ticks f k ps' ctx'
  end.


(** ** [Spectrum]: rain *)

Record RainDrop := mkDrop {
  d_x : Q; d_y : Q; d_length : Q; d_speed : Q; d_opacity : Q
}.

(** The body of the rain loop for drop [i]; [rnd i] stands for the
    [Math.random()] drawn when the drop is recycled. *)
Definition rain_step (normBass width height : Q) (rnd : nat -> Q) (i : nat)
  (drop : RainDrop) : RainDrop :=
  let y := d_y drop + (d_speed drop + normBass * 15) in
  if Qltb height y
  then mkDrop (rnd i * width) (- d_length drop) (d_length drop)
              (d_speed drop) (d_opacity drop)
  else mkDrop (d_x drop) y (d_length drop) (d_speed drop) (d_opacity drop).

Definition rain_loop (normBass width height : Q) (rnd : nat -> Q)
  (rain : list RainDrop) : list RainDrop :=
  imap (rain_step normBass width height rnd) rain.


(** ** [Spectrum]: what is spawned *)


(** The glow pushed by the bokeh "Spawn", from four draws. *)
Definition spawn_sparkle (width height u1 u2 u3 u4 : Q) : Sparkle :=
  mkSparkle (u1 * width) (u2 * height) (u3 * 50 + 20) 0 0 (90 + u4 * 60).

(** [k] ticks of the bokeh draw loop with no new glow. *)
Fixpoint sparkles_ticks (f : Frame) (k : nat) (ss : list Sparkle) (ctx : Ctx)
  : list Sparkle * Ctx :=
  match k with
  | O => (ss, ctx)
  | S k => let '(ss', ctx') := sparkles_loop f ss ctx in
           sparkles_ticks f k ss' ctx'
  end.

(** The opacity a glow ramps towards. *)
Definition glow_target (f : Frame) : Q := 0.3 + normHigh f * 0.4.

(** A glow as the loop keeps it. *)
Definition glow_ok (p : Sparkle) : Prop :=
  0 <= s_alpha p /\ s_alpha p <= 0.7 /\ 0 <= s_life p.


(** ** [Spectrum]: colours *)

(** [a % b] on numbers: the remainder has the sign of [a]. *)
Definition Qtrunc (q : Q) : Z := Z.quot (Qnum q) (Z.pos (Qden q)).
Definition js_rem (a b : Q) : Q := a - b * inject_Z (Qtrunc (a / b)).

Record HSL := mkHSL { hsl_h : Q; hsl_s : Q; hsl_l : Q }.

(** [getBaseColor] after [computed.match(/\d+/g)]: [None] when nothing
    matched, else the first three numbers [parseInt] reads (a computed
    colour that holds a number holds at least three). *)
Definition getBaseColor (m : option (Z * Z * Z)) : HSL :=
  match m with
  | None => mkHSL 0 0 50
  | Some (R, G, B) =>
      let r := inject_Z R / 255 in
      let g := inject_Z G / 255 in
      let b := inject_Z B / 255 in
      let max := Qmax r (Qmax g b) in
      let min := Qmin r (Qmin g b) in
      let l := (max + min) / 2 in
      if Qeq_bool max min then mkHSL (0 * 360) (0 * 100) (l * 100)
      else
        let d := max - min in
        let s := if Qltb 0.5 l then d / (2 - max - min) else d / (max + min) in
        let h :=
          if Qeq_bool max r then (g - b) / d + (if Qltb g b then 6 else 0)
          else if Qeq_bool max g then (b - r) / d + 2
          else if Qeq_bool max b then (r - g) / d + 4
          else 0 in
        mkHSL (h / 6 * 360) (s * 100) (l * 100)
  end.

(** The hue of bar [i]: rainbow mode, and custom mode around the base hue. *)
Definition rainbow_hue (i : nat) : Q :=
  inject_Z (Z.of_nat i) / inject_Z (Z.of_nat barsToRender) * 320.

Definition custom_hue (base : HSL) (i : nat) : Q :=
  let hueShift :=
    inject_Z (Z.of_nat i) / inject_Z (Z.of_nat barsToRender) * 20 - 10 in
  js_rem (hsl_h base + hueShift + 360) 360.

(** The lightness of the glow in custom mode. *)
Definition custom_glow_lightness (base : HSL) : Q := Qmin 100 (hsl_l base + 10).


(** ** [App]: the time display and the progress bar *)



(** [ProgressBar]: the played share in percent. *)
Definition progress_percent (currentTime duration : Q) : Q :=
  if Qltb 0 duration then currentTime / duration * 100 else 0.


(** ** [parseLrc]: reading the text *)

(** [\d]: an ASCII digit, and its value. *)
Definition is_digit (c : ascii) : bool :=
  Nat.leb 48 (nat_of_ascii c) && Nat.leb (nat_of_ascii c) 57.

Definition digit_value (c : ascii) : Z := Z.of_nat (nat_of_ascii c) - 48.

(** [parseInt] of a run of digits, and [parseFloat] of ["0." + digits]. *)
Definition parseInt_digits (ds : list ascii) : Z :=
  fold_left (fun acc c => 10 * acc + digit_value c)%Z ds 0%Z.

Definition parseFloat_fraction (ds : list ascii) : Q :=
  inject_Z (parseInt_digits ds) / inject_Z (10 ^ Z.of_nat (length ds)).

(** The last group of the pattern, any characters: the longest run
    without a line terminator.  The text is read
    as UTF-8, in which U+2028 and U+2029 are the bytes E2 80 A8 and
    E2 80 A9; the other terminators are "\n" and "\r". *)
Fixpoint dot_star (l : list ascii) : list ascii :=
  match l with
  | [] => []
  | c :: rest =>
      if Ascii.eqb c "010" || Ascii.eqb c "013" then []
      else if Ascii.eqb c "226" then
        match rest with
        | c1 :: c2 :: _ =>
            if Ascii.eqb c1 "128" && (Ascii.eqb c2 "168" || Ascii.eqb c2 "169")
            then [] else c :: dot_star rest
        | _ => c :: dot_star rest
        end
      else c :: dot_star rest
  end.

(** The groups of [timeRegex] (an opening bracket, two digits, a colon,
    two digits, a dot, two or three digits, a closing bracket, the rest)
    when the pattern matches at the start of [l]: three digits of fraction
    are tried before two. *)
Definition match_here (l : list ascii)
  : option (list ascii * list ascii * list ascii * list ascii) :=
  match l with
  | b :: m1 :: m2 :: c :: s1 :: s2 :: d :: f1 :: f2 :: rest =>
      if Ascii.eqb b "[" && is_digit m1 && is_digit m2 && Ascii.eqb c ":"
         && is_digit s1 && is_digit s2 && Ascii.eqb d "."
         && is_digit f1 && is_digit f2
      then
        match rest with
        | f3 :: rest' =>
            if is_digit f3 then
              match rest' with
              | e :: rest'' =>
                  if Ascii.eqb e "]"
                  then Some ([m1; m2], [s1; s2], [f1; f2; f3], dot_star rest'')
                  else None
              | [] => None
              end
            else if Ascii.eqb f3 "]"
                 then Some ([m1; m2], [s1; s2], [f1; f2], dot_star rest')
                 else None
        | [] => None
        end
      else None
  | _ => None
  end.

(** [timeRegex.exec(line)]: the leftmost match. *)
Fixpoint regex_exec (l : list ascii)
  : option (list ascii * list ascii * list ascii * list ascii) :=
  match match_here l with
  | Some m => Some m
  | None => match l with
            | [] => None
            | _ :: rest => regex_exec rest
            end
  end.

(** The body of [lines.forEach]: the pair pushed for a line, if any.
    [trim] stands for [String.prototype.trim]. *)
Definition parse_line (trim : string -> string) (line : string)
  : option TempLine :=
  match regex_exec (String.list_ascii_of_string line) with
  | Some (mm, ss, ff, rest) =>
      let minutes := parseInt_digits mm in
      let seconds := parseInt_digits ss in
      let milliseconds := parseFloat_fraction ff in
      let time := inject_Z minutes * 60 + inject_Z seconds + milliseconds in
      let text := trim (String.string_of_list_ascii rest) in
      if String.eqb text "" then None else Some (mkTemp time text)
  | None => None
  end.

(** [lrcString.split('\n')]. *)
Fixpoint split_lines (l : list ascii) (cur : list ascii) : list string :=
  match l with
  | [] => [String.string_of_list_ascii (rev cur)]
  | c :: rest =>
      if Ascii.eqb c "010"
      then String.string_of_list_ascii (rev cur) :: split_lines rest []
      else split_lines rest (c :: cur)
  end.

(** [parseLrc]. *)
Definition parseLrc (trim : string -> string) (lrcString : string)
  : list LyricLine :=
  parseLrc_loop
    (omap (parse_line trim) (split_lines (String.list_ascii_of_string lrcString) [])).


(** What the groups of a match hold: two digits, two digits, and two or
    three digits. *)
Definition stamp_ok (mm ss ff : list ascii) : Prop :=
  (exists m1 m2, mm = [m1; m2] /\ is_digit m1 = true /\ is_digit m2 = true) /\
  (exists s1 s2, ss = [s1; s2] /\ is_digit s1 = true /\ is_digit s2 = true) /\
  ((exists f1 f2, ff = [f1; f2] /\ is_digit f1 = true /\ is_digit f2 = true) \/
   (exists f1 f2 f3, ff = [f1; f2; f3] /\ is_digit f1 = true /\
                     is_digit f2 = true /\ is_digit f3 = true)).


(** ** [Visualizer]: the background blobs *)

Record Blob := mkBlob {
  b_x : Q; b_y : Q; b_vx : Q; b_vy : Q; b_size : Q; b_phase : Q
}.

(** The motion part of [blobsRef.current.forEach]; [sin] and [cos] stand
    for [Math.sin] and [Math.cos]. *)
Definition blob_step (sin cos : Q -> Q) (isPlaying : bool)
  (normBass width height : Q) (blob : Blob) : Blob :=
  if isPlaying then
    let phase := b_phase blob + (0.005 + normBass * 0.01) in
    let x := b_x blob + (sin phase * 1.5 + b_vx blob) in
    let y := b_y blob + (cos phase * 1.5 + b_vy blob) in
    let x := if Qltb x (- b_size blob) then width + b_size blob else x in
    let x := if Qltb (width + b_size blob) x then - b_size blob else x in
    let y := if Qltb y (- b_size blob) then height + b_size blob else y in
    let y := if Qltb (height + b_size blob) y then - b_size blob else y in
    mkBlob x y (b_vx blob) (b_vy blob) (b_size blob) phase
  else blob.

(** The radius and the opacity a blob is painted with. *)
Definition blob_currentSize (normBass : Q) (blob : Blob) : Q :=
  b_size blob * (1 + normBass * 0.3).

Definition blob_opacity (normBass : Q) : Q := 0.25 + normBass * 0.15.

(** The length of a string in UTF-16 code units, from its UTF-8 bytes. *)
Definition utf16_units (c : ascii) : nat :=
  let n := nat_of_ascii c in
  if Nat.ltb n 128 then 1
  else if Nat.ltb n 192 then 0
  else if Nat.ltb n 240 then 1
  else 2.

Definition js_length (s : string) : nat :=
  list_sum (utf16_units <$> String.list_ascii_of_string s).

(** "Parse color": [hex] stands for the three [parseInt(color.slice, 16)]
    of the branch taken by a ['#'] followed by six more characters. *)
Definition blob_rgb (hex : string -> Z * Z * Z) (color : string) : Z * Z * Z :=
  if String.prefix "#" color && Nat.eqb (js_length color) 7
  then hex color
  else (255, 255, 255)%Z.

(** ** [App]: the theme colour taken from the cover *)

(** [extractColorFromImage]: the pixel read back from the 1x1 canvas, or
    [None] when the image fails to load or no context is available. *)
Definition extractColorFromImage (pixel : option (Z * Z * Z)) : string :=
  match pixel with
  | Some (r, g, b) =>
      "rgb(" +:+ pretty r +:+ "," +:+ pretty g +:+ "," +:+ pretty b +:+ ")"
  | None => "#4ade80"
  end.

(** ** [App]: the animation loop *)

(** The state the callback of [animate] touches: the [currentTime] state
    and [lastTimeRef]. *)
Record Clock := mkClock { shown : Q; lastTime : Q }.

(** One run of [animate] while playing, for the audio element's time. *)
Definition animate (time : Q) (c : Clock) : Clock :=
  if Qltb 0.005 (Qabs (time - lastTime c)) then mkClock time time
  else if Qeq_bool time 0 then mkClock 0 (lastTime c)
  else c.


(** ** [Spectrum]: the bin of a bar *)

(** [step = Math.floor(bufferLength / 2.0 / barsToRender)] and
    [dataIndex = Math.floor(i * step)]. *)
Definition bin_step (bufferLength : Z) : Z :=
  Qfloor (inject_Z bufferLength / 2 / inject_Z (Z.of_nat barsToRender)).

Definition dataIndex (bufferLength : Z) (i : nat) : Z :=
  Qfloor (inject_Z (Z.of_nat i) * inject_Z (bin_step bufferLength)).

(** * Properties *)

(** ** Booleans and numbers *)

Lemma Qleb_le x y : Qleb x y = true <-> x <= y.
Proof. apply Qle_bool_iff. Qed.

Lemma Qleb_gt x y : Qleb x y = false <-> y < x.
Proof.
  unfold Qleb. split; intros H.
  - apply Qnot_le_lt. intros Hle. apply Qle_bool_iff in Hle. congruence.
  - destruct (Qle_bool x y) eqn:E; [|reflexivity].
    apply Qle_bool_iff in E. lra.
Qed.

Lemma Qltb_lt x y : Qltb x y = true <-> x < y.
Proof.
  unfold Qltb. rewrite negb_true_iff. apply Qleb_gt.
Qed.

Lemma Qltb_ge x y : Qltb x y = false <-> y <= x.
Proof.
  unfold Qltb. rewrite negb_false_iff. apply Qleb_le.
Qed.

Lemma Qeq_bool_false x y : Qeq_bool x y = false <-> ~ x == y.
Proof.
  split; intros H.
  - intros E. apply Qeq_bool_iff in E. congruence.
  - destruct (Qeq_bool x y) eqn:E; [|reflexivity].
    apply Qeq_bool_iff in E. contradiction.
Qed.

(** [a || b] with a non-zero default is never zero, hence truthy. *)
Lemma js_or_nonzero d dflt : ~ dflt == 0 -> ~ js_or d dflt == 0.
Proof.
  intros Hd. unfold js_or. destruct d as [q|]; [|exact Hd].
  destruct (Qeq_bool q 0) eqn:E; [exact Hd|].
  now apply Qeq_bool_false.
Qed.

Lemma js_or_truthy q dflt : ~ q == 0 -> js_or (Some q) dflt = q.
Proof.
  intros H. unfold js_or. apply Qeq_bool_false in H. now rewrite H.
Qed.

Lemma js_or_idem d dflt dflt' :
  ~ dflt == 0 -> js_or (Some (js_or d dflt)) dflt' = js_or d dflt.
Proof.
  intros H. apply js_or_truthy, js_or_nonzero, H.
Qed.

(** ** [normalizeLyrics], line by line *)

Lemma length_normalizeLyrics L : length (normalizeLyrics L) = length L.
Proof. apply length_imap. Qed.

Lemma lookup_normalizeLyrics L i :
  normalizeLyrics L !! i = normalizeLine L i <$> L !! i.
Proof. apply list_lookup_imap. Qed.

Lemma normalizeLine_time L i l : time (normalizeLine L i l) = time l.
Proof.
  unfold normalizeLine. destruct (Nat.eqb _ _); [reflexivity|].
  destruct (L !! (i + 1)%nat); reflexivity.
Qed.

Lemma normalizeLine_text L i l : text (normalizeLine L i l) = text l.
Proof.
  unfold normalizeLine. destruct (Nat.eqb _ _); [reflexivity|].
  destruct (L !! (i + 1)%nat); reflexivity.
Qed.

Lemma normalizeLine_inner L i l n :
  L !! i = Some l -> L !! (i + 1)%nat = Some n ->
  normalizeLine L i l = mkLine (time l) (text l) (Some (inner_duration l n)).
Proof.
  intros Hl Hn. unfold normalizeLine.
  apply lookup_lt_Some in Hn as Hlen.
  destruct (Nat.eqb_spec i (length L - 1)) as [E|_]; [lia|].
  rewrite Hn. reflexivity.
Qed.

Lemma normalizeLine_last L i l :
  L !! i = Some l -> L !! (i + 1)%nat = None ->
  normalizeLine L i l =
  mkLine (time l) (text l) (Some (js_or (duration l) LAST_DEFAULT)).
Proof.
  intros Hl Hn. unfold normalizeLine.
  apply lookup_lt_Some in Hl as Hlen.
  apply lookup_ge_None in Hn.
  destruct (Nat.eqb_spec i (length L - 1)) as [_|E]; [reflexivity|lia].
Qed.

Lemma inner_duration_pos l n : 0 < inner_duration l n.
Proof.
  unfold inner_duration.
  destruct (Qeq_bool _ _ || Qleb _ _) eqn:E; [reflexivity|].
  apply orb_false_iff in E as [_ E]. apply Qleb_gt in E. lra.
Qed.


Lemma inner_duration_guard l n :
  time n - time l <= 1 # 10 -> inner_duration l n = MIN_DURATION.
Proof.
  intros H. unfold inner_duration.
  apply Qleb_le in H. rewrite H, orb_true_r. reflexivity.
Qed.

(** ** Frame and guard of [normalizeLyrics] *)

(** C8: [normalizeLyrics] returns a list of the same length whose lines
    carry, position by position, the times and the texts of the input;
    only the durations may differ. *)
Theorem normalizeLyrics_preserves_time_text (L : list LyricLine) :
  length (normalizeLyrics L) = length L /\
  map time (normalizeLyrics L) = map time L /\
  map text (normalizeLyrics L) = map text L.
Proof.
  split; [apply length_normalizeLyrics|].
  split; apply list_eq; intros i;
    rewrite !list_lookup_fmap, lookup_normalizeLyrics;
    destruct (L !! i) as [l|]; simpl; [|reflexivity| |reflexivity].
  - now rewrite normalizeLine_time.
  - now rewrite normalizeLine_text.
Qed.

(** C10: a line that is not the last and whose gap to the next start is at
    most 0.1 s (zero, negative or slightly positive) gets exactly 2.0 s. *)
Theorem normalizeLyrics_guard (L : list LyricLine) (i : nat) (l n : LyricLine) :
  L !! i = Some l -> L !! (i + 1)%nat = Some n ->
  time n - time l <= 0.1 ->
  exists l', normalizeLyrics L !! i = Some l' /\ duration l' = Some 2.
Proof.
  intros Hl Hn Hgap. rewrite lookup_normalizeLyrics, Hl. simpl.
  rewrite (normalizeLine_inner L i l n Hl Hn).
  eexists; split; [reflexivity|]. simpl.
  rewrite inner_duration_guard; [reflexivity|exact Hgap].
Qed.

Lemma normalizeLyrics_guard_witness :
  exists l', normalizeLyrics [mkLine 7 "a" None; mkLine 7.05 "b" None] !! 0%nat
             = Some l' /\ duration l' = Some 2.
Proof.
  apply (normalizeLyrics_guard _ 0 (mkLine 7 "a" None) (mkLine 7.05 "b" None));
    [reflexivity|reflexivity|].
  simpl. lra.
Defined.

(** C6: normalizing twice is the same as normalizing once. *)
Theorem normalizeLyrics_idempotent (L : list LyricLine) :
  normalizeLyrics (normalizeLyrics L) = normalizeLyrics L.
Proof.
  apply list_eq; intros i.
  rewrite (lookup_normalizeLyrics (normalizeLyrics L)).
  rewrite !lookup_normalizeLyrics.
  destruct (L !! i) as [l|] eqn:Hl; simpl; [|reflexivity].
  f_equal.
  destruct (L !! (i + 1)%nat) as [n|] eqn:Hn.
  - rewrite (normalizeLine_inner L i l n Hl Hn).
    rewrite (normalizeLine_inner (normalizeLyrics L) i _
               (normalizeLine L (i + 1) n)).
    + unfold inner_duration. simpl. now rewrite normalizeLine_time.
    + rewrite lookup_normalizeLyrics, Hl. simpl.
      now rewrite (normalizeLine_inner L i l n Hl Hn).
    + rewrite lookup_normalizeLyrics, Hn. reflexivity.
  - rewrite (normalizeLine_last L i l Hl Hn).
    rewrite normalizeLine_last.
    + cbn [time text duration].
      rewrite js_or_idem; [reflexivity|]. unfold LAST_DEFAULT. lra.
    + rewrite lookup_normalizeLyrics, Hl. simpl.
      now rewrite (normalizeLine_last L i l Hl Hn).
    + rewrite lookup_normalizeLyrics, Hn. reflexivity.
Qed.

(** ** The instrumental gap of [parseLrc] *)

(** C4: two parsed lines at t = 0 and t = 15 give three lines: the first
    at 0 with duration 13, the marker at 13 with duration 2, and the second
    line with its time and text; the sync-engine pass keeps all three. *)
Theorem parseLrc_gap_insertion (a b : string) :
  parseLrc_loop [mkTemp 0 a; mkTemp 15 b] =
    [mkLine 0 a (Some 13); mkLine 13 "•••" (Some 2); mkLine 15 b (Some 5)] /\
  normalizeLyrics (parseLrc_loop [mkTemp 0 a; mkTemp 15 b]) =
    [mkLine 0 a (Some 13); mkLine 13 "•••" (Some 2); mkLine 15 b (Some 5)].
Proof.
  split; reflexivity.
Qed.

(** ** The timeline after normalization *)












(** ** The active line *)

Lemma findIndex_from_none {A} (p : A -> bool) l k :
  (0 <= k)%Z ->
  findIndex_from p l k = (-1)%Z <-> forall i x, l !! i = Some x -> p x = false.
Proof.
  revert k. induction l as [|a l IH]; intros k Hk; simpl.
  - split; [intros _ i x Hx; discriminate|reflexivity].
  - destruct (p a) eqn:Ea.
    + split; [lia|]. intros H. specialize (H 0%nat a eq_refl). congruence.
    + rewrite IH by lia. split.
      * intros H [|i] x Hx; [injection Hx as <-; exact Ea|exact (H i x Hx)].
      * intros H i x Hx. exact (H (S i) x Hx).
Qed.

Lemma findIndex_from_found {A} (p : A -> bool) l k :
  findIndex_from p l k = (-1)%Z \/
  exists i x, findIndex_from p l k = (k + Z.of_nat i)%Z /\ l !! i = Some x /\
              p x = true /\
              forall j y, (j < i)%nat -> l !! j = Some y -> p y = false.
Proof.
  revert k. induction l as [|a l IH]; intros k; simpl.
  - left; reflexivity.
  - destruct (p a) eqn:Ea.
    + right. exists 0%nat, a. repeat split; [lia|exact Ea|]. intros j y Hj. lia.
    + destruct (IH (k + 1)%Z) as [H|(i & x & Hi & Hx & Hp & Hmin)];
        [left; exact H|].
      right. exists (S i), x. repeat split; [lia|exact Hx|exact Hp|].
      intros [|j] y Hj Hy; [injection Hy as <-; exact Ea|].
      apply (Hmin j y); [lia|exact Hy].
Qed.

(** After [normalizeLyrics] every duration is set and is not zero, so the
    [|| 3] of the view never applies. *)
Lemma normalized_duration L i l :
  normalizeLyrics L !! i = Some l -> exists d, duration l = Some d /\ ~ d == 0.
Proof.
  rewrite lookup_normalizeLyrics.
  destruct (L !! i) as [x|] eqn:Hx; [|discriminate].
  simpl. intros [= <-].
  destruct (L !! (i + 1)%nat) as [n|] eqn:Hn.
  - rewrite (normalizeLine_inner L i x n Hx Hn). simpl.
    eexists; split; [reflexivity|].
    pose proof (inner_duration_pos x n). lra.
  - rewrite (normalizeLine_last L i x Hx Hn). simpl.
    eexists; split; [reflexivity|].
    apply js_or_nonzero. unfold LAST_DEFAULT. lra.
Qed.

Lemma in_interval_contains T l d :
  duration l = Some d -> ~ d == 0 -> in_interval T l = true <-> contains T l.
Proof.
  intros Hd Hnz. unfold in_interval, contains.
  rewrite Hd, (js_or_truthy d 3 Hnz), andb_true_iff, Qleb_le, Qltb_lt.
  split.
  - intros [H1 H2]. exists d. auto.
  - intros (d' & [= <-] & H1 & H2). auto.
Qed.

Lemma in_interval_normalized L T i l :
  normalizeLyrics L !! i = Some l -> in_interval T l = true <-> contains T l.
Proof.
  intros Hl. destruct (normalized_duration L i l Hl) as (d & Hd & Hnz).
  exact (in_interval_contains T l d Hd Hnz).
Qed.

Lemma in_interval_normalized_false L T i l :
  normalizeLyrics L !! i = Some l -> in_interval T l = false <-> ~ contains T l.
Proof.
  intros Hl. rewrite <- (in_interval_normalized L T i l Hl).
  destruct (in_interval T l); split; congruence.
Qed.






(** ** Rows without an active line *)

Lemma lookup_LyricsView_rows L T i :
  LyricsView_rows L T !! i =
  rowProps (activeIndex (normalizeLyrics L) T) T i <$> normalizeLyrics L !! i.
Proof. apply list_lookup_imap. Qed.

Lemma inject_Z_succ_ge_1 (i : nat) : 1 <= inject_Z (Z.of_nat i + 1).
Proof.
  change 1 with (inject_Z 1). rewrite <- Zle_Qle. lia.
Qed.

(** C9: with no active line ([activeIndex = -1]) every row [i] is neither
    active nor past, sits at distance [i + 1], and so is drawn with the
    future tint, a blur of [min(8, (i + 1) * 1.5) > 0] and a scale of
    [max(0.85, 1 - (i + 1) * 0.05)], below the active 1.05. *)
Theorem rows_without_active_line (L : list LyricLine) (T : Q) (i : nat)
  (r : RowProps) :
  activeIndex (normalizeLyrics L) T = (-1)%Z ->
  LyricsView_rows L T !! i = Some r ->
  isActive r = false /\ isPast r = false /\
  distance r = (Z.of_nat i + 1)%Z /\
  blur r = Qmin 8 (inject_Z (Z.of_nat i + 1) * 1.5) /\ 0 < blur r /\
  scale r = Qmax 0.85 (1 - inject_Z (Z.of_nat i + 1) * 0.05) /\
  scale r < 1 /\
  inactive_color r = White /\ inactive_opacity r = 0.3.
Proof.
  intros Hact. rewrite lookup_LyricsView_rows, Hact.
  destruct (normalizeLyrics L !! i) as [l|]; [|discriminate].
  simpl. intros [= <-]. unfold rowProps, blur, scale, inactive_color,
    inactive_opacity. simpl.
  assert (E1 : (Z.of_nat i =? -1)%Z = false) by (apply Z.eqb_neq; lia).
  assert (E2 : (Z.of_nat i <? -1)%Z = false) by (apply Z.ltb_ge; lia).
  assert (E3 : Z.abs (Z.of_nat i - -1) = (Z.of_nat i + 1)%Z) by lia.
  rewrite E1, E2, E3. pose proof (inject_Z_succ_ge_1 i) as Hge.
  generalize dependent (inject_Z (Z.of_nat i + 1)). intros x Hge.
  repeat split.
  - destruct (Q.min_spec 8 (x * 1.5)) as [[_ E]|[_ E]]; rewrite E; lra.
  - destruct (Q.max_spec 0.85 (1 - x * 0.05)) as [[_ E]|[_ E]]; rewrite E; lra.
Qed.

Lemma rows_without_active_line_witness :
  let r := mkRow (mkLine 3 "a" (Some 5)) false false 1 0 in
  isActive r = false /\ isPast r = false /\
  distance r = (Z.of_nat 0 + 1)%Z /\
  blur r = Qmin 8 (inject_Z (Z.of_nat 0 + 1) * 1.5) /\ 0 < blur r /\
  scale r = Qmax 0.85 (1 - inject_Z (Z.of_nat 0 + 1) * 0.05) /\
  scale r < 1 /\
  inactive_color r = White /\ inactive_opacity r = 0.3.
Proof.
  apply (rows_without_active_line [mkLine 3 "a" None] 1 0);
    reflexivity.
Defined.

(** ** The fill of the active line *)









(** ** Peak hold *)

Lemma decayed_0 H : decayed H 0 == H.
Proof. unfold decayed. simpl. ring. Qed.

Lemma decayed_succ H k : decayed H (S k) == decayed H k * 0.95 - 0.5.
Proof.
  unfold decayed. rewrite Nat2Z.inj_succ, <- Z.add_1_r.
  rewrite Qpower_plus by discriminate.
  generalize (0.95 ^ Z.of_nat k). intros x.
  change (0.95 ^ 1) with 0.95. ring.
Qed.

Lemma peak_update_proper h p q : p == q -> peak_update h p == peak_update h q.
Proof.
  intros E. unfold peak_update.
  destruct (Qltb p h) eqn:Ep, (Qltb q h) eqn:Eq.
  - reflexivity.
  - apply Qltb_lt in Ep. apply Qltb_ge in Eq. lra.
  - apply Qltb_ge in Ep. apply Qltb_lt in Eq. lra.
  - rewrite E. reflexivity.
Qed.

(** A frame of height 0 over a stored peak that is not negative. *)
Lemma peak_update_decay p : 0 <= p -> peak_update 0 p = p * 0.95 - 0.5.
Proof.
  intros Hp. unfold peak_update.
  apply Qltb_ge in Hp. rewrite Hp. reflexivity.
Qed.

(** A frame of height 0 over a negative stored peak. *)
Lemma peak_update_reset p : p < 0 -> peak_update 0 p = 0.
Proof.
  intros Hp. unfold peak_update.
  apply Qltb_lt in Hp. rewrite Hp. reflexivity.
Qed.

Lemma peak_run_snoc hs h p :
  peak_run (hs ++ [h]) p = peak_update h (peak_run hs p).
Proof. unfold peak_run. rewrite fold_left_app. reflexivity. Qed.

Lemma drop_heights_succ H k : drop_heights H (S k) = drop_heights H k ++ [0].
Proof.
  unfold drop_heights. rewrite <- app_comm_cons. f_equal.
  induction k as [|k IH]; [reflexivity|]. simpl. f_equal. exact IH.
Qed.

Lemma peak_run_decayed H k :
  0 < H -> (forall j, (j < k)%nat -> 0 <= decayed H j) ->
  peak_run (drop_heights H k) 0 == decayed H k.
Proof.
  intros HH. induction k as [|k IH]; intros Hnn.
  - rewrite decayed_0. unfold drop_heights, peak_run, peak_update. simpl.
    apply Qltb_lt in HH. rewrite HH. reflexivity.
  - rewrite drop_heights_succ, peak_run_snoc, decayed_succ.
    assert (IH' : peak_run (drop_heights H k) 0 == decayed H k)
      by (apply IH; intros j Hj; apply Hnn; lia).
    rewrite (peak_update_proper 0 _ _ IH').
    rewrite peak_update_decay by (apply Hnn; lia). reflexivity.
Qed.

(** C2, as stated, fails.  From H = 100 the stored peak at frame 2 is
    89.275, not 100 * 0.95^2 - 0.5 * 2 = 89.25: the 0.5 is subtracted
    after each multiplication and is itself scaled by the later ones.
    From H = 1 the stored peak at frame 2 is -0.0725: it is stored as it
    is, not clipped to 0. *)
Lemma peak_decay_not_linear :
  ~ peak_run (drop_heights 100 2) 0 == Qmax 0 (100 * 0.95 ^ 2 - 0.5 * 2) /\
  ~ peak_run (drop_heights 1 2) 0 == Qmax 0 (1 * 0.95 ^ 2 - 0.5 * 2) /\
  peak_run (drop_heights 1 2) 0 < 0.
Proof.
  split; [|split].
  - intros E. apply Qeq_bool_iff in E. vm_compute in E. discriminate.
  - intros E. apply Qeq_bool_iff in E. vm_compute in E. discriminate.
  - reflexivity.
Qed.

(** C2, amended: for a bar of height H > 0 at frame 0 (over a stored peak
    of 0) and of height 0 afterwards, as long as the stored peak has not
    been negative the stored peak at frame k is
    H * 0.95^k - 10 * (1 - 0.95^k), each frame multiplying by 0.95 and then
    subtracting 0.5; at k = 1 this is H * 0.95 - 0.5.  The value is stored
    unclipped: the first negative one is kept for its frame, the next
    frame stores the bar height 0 and the one after that -0.5. *)
Theorem peak_decay (H : Q) (k : nat) :
  0 < H -> (forall j, (j < k)%nat -> 0 <= decayed H j) ->
  peak_run (drop_heights H k) 0 == H * 0.95 ^ Z.of_nat k
                                    - 10 * (1 - 0.95 ^ Z.of_nat k) /\
  decayed H 1 == H * 0.95 ^ 1 - 0.5 * 1 /\
  (decayed H k < 0 ->
   peak_run (drop_heights H (S k)) 0 == 0 /\
   peak_run (drop_heights H (S (S k))) 0 == - 0.5).
Proof.
  intros HH Hnn.
  pose proof (peak_run_decayed H k HH Hnn) as Hk.
  split; [exact Hk|]. split.
  - unfold decayed. change (0.95 ^ Z.of_nat 1) with 0.95.
    change (0.95 ^ 1) with 0.95. ring.
  - intros Hneg.
    assert (H1 : peak_run (drop_heights H (S k)) 0 = 0).
    { rewrite drop_heights_succ, peak_run_snoc.
      apply peak_update_reset. rewrite Hk. exact Hneg. }
    split; [rewrite H1; reflexivity|].
    rewrite drop_heights_succ, peak_run_snoc, H1.
    reflexivity.
Qed.

Lemma peak_decay_witness :
  peak_run (drop_heights 1 2) 0 == 1 * 0.95 ^ Z.of_nat 2
                                   - 10 * (1 - 0.95 ^ Z.of_nat 2) /\
  peak_run (drop_heights 1 3) 0 == 0 /\
  peak_run (drop_heights 1 4) 0 == - 0.5.
Proof.
  assert (Hnn : forall j, (j < 2)%nat -> 0 <= decayed 1 j).
  { intros [|[|j]] Hj; [discriminate|discriminate|lia]. }
  destruct (peak_decay 1 2 eq_refl Hnn) as (Hk & _ & Hneg).
  split; [exact Hk|]. apply Hneg. reflexivity.
Defined.

(** The bars of the draw tick are never lower than 2, so a frame of
    height 0 is a frame the peak update is run on, not one [barHeight]
    produces. *)
Lemma barHeight_min pw height i : 2 <= barHeight pw height i.
Proof. unfold barHeight. apply Q.le_max_l. Qed.

(** ** Brightness *)

Lemma alpha_inv_paint b l ctx :
  alpha_inv b ctx -> alpha_inv b (paint l 1 ctx).
Proof.
  intros [Hg Hc]. split; [exact Hg|]. simpl.
  apply Forall_app. split; [exact Hc|].
  constructor; [|constructor]. unfold scaled. simpl. rewrite Hg. ring.
Qed.

Lemma set_globalAlpha_in_range v ctx :
  0 <= v -> v <= 1 -> set_globalAlpha v ctx = mkCtx v (calls ctx).
Proof.
  intros H0 H1. unfold set_globalAlpha.
  apply Qleb_le in H0, H1. rewrite H0, H1. reflexivity.
Qed.

(** An entity of opacity [a] drawn between the "mix" and the "reset". *)
Lemma alpha_inv_mix b l a ctx :
  0 <= b -> b <= 1 -> 0 <= a -> a <= 1 ->
  alpha_inv b ctx ->
  alpha_inv b (set_globalAlpha b (paint l a (set_globalAlpha (a * b) ctx))).
Proof.
  intros Hb0 Hb1 Ha0 Ha1 [Hg Hc].
  rewrite (set_globalAlpha_in_range (a * b)) by nra.
  rewrite set_globalAlpha_in_range by assumption.
  split; [reflexivity|]. simpl.
  apply Forall_app. split; [exact Hc|].
  constructor; [|constructor]. unfold scaled. simpl. reflexivity.
Qed.

Lemma rockets_loop_inv f rs ctx ps :
  alpha_inv (brightness f) ctx -> Forall particle_ok ps ->
  alpha_inv (brightness f) (fst (snd (rockets_loop f rs (ctx, ps)))) /\
  Forall particle_ok (snd (snd (rockets_loop f rs (ctx, ps)))).
Proof.
  intros Hctx Hps. induction rs as [|r rest IH]; simpl; [auto|].
  destruct (rockets_loop f rest (ctx, ps)) as [rest' [ctx' ps']].
  simpl in IH. destruct IH as [IHc IHp].
  destruct (Qleb (-2) (r_vy r + 0.2) || Qleb (r_y r + r_vy r) (r_targetY r));
    simpl; (split; [apply alpha_inv_paint; exact IHc|]); [|exact IHp].
  apply Forall_app. split; [exact IHp|].
  unfold explode. apply Forall_fmap, Forall_forall. intros j _.
  unfold particle_ok. simpl. lra.
Qed.

Lemma particles_loop_inv f ps ctx :
  0 <= brightness f -> brightness f <= 1 ->
  alpha_inv (brightness f) ctx -> Forall particle_ok ps ->
  alpha_inv (brightness f) (snd (particles_loop f ps ctx)).
Proof.
  intros Hb0 Hb1 Hctx Hps. induction Hps as [|p rest Hp Hrest IH]; simpl;
    [exact Hctx|].
  destruct (particles_loop f rest ctx) as [rest' ctx']. simpl in IH.
  destruct (Qleb (p_alpha p - 0.015) 0) eqn:E; simpl; [exact IH|].
  apply Qleb_gt in E. unfold particle_ok in Hp.
  apply alpha_inv_mix; [assumption|assumption|lra|lra|exact IH].
Qed.

Lemma sparkle_age_alpha f p :
  0 <= normHigh f -> normHigh f <= 1 -> sparkle_ok p ->
  s_life (sparkle_age f p) < s_maxLife (sparkle_age f p) ->
  0 <= s_alpha (sparkle_age f p) /\ s_alpha (sparkle_age f p) <= 1.
Proof.
  intros Hn0 Hn1 (Ha0 & Ha1 & Hl) Hlive. unfold sparkle_age in *. simpl in *.
  set (g := 0.3 + normHigh f * 0.4).
  assert (Hg : 0 <= g /\ g <= 1) by (unfold g; lra).
  destruct (Qltb (s_life p + 1) 30) eqn:E1.
  - apply Qltb_lt in E1.
    assert (Hx : 0 <= (s_life p + 1) / 30 /\ (s_life p + 1) / 30 <= 1).
    { split; [apply Qle_shift_div_l|apply Qle_shift_div_r]; lra. }
    nra.
  - destruct (Qltb (s_maxLife p - 30) (s_life p + 1)) eqn:E2; [|lra].
    apply Qltb_lt in E2.
    assert (Hx : 0 <= (s_maxLife p - (s_life p + 1)) / 30 /\
                 (s_maxLife p - (s_life p + 1)) / 30 <= 1).
    { split; [apply Qle_shift_div_l|apply Qle_shift_div_r]; lra. }
    nra.
Qed.

Lemma sparkles_loop_inv f ss ctx :
  0 <= brightness f -> brightness f <= 1 ->
  0 <= normHigh f -> normHigh f <= 1 ->
  alpha_inv (brightness f) ctx -> Forall sparkle_ok ss ->
  alpha_inv (brightness f) (snd (sparkles_loop f ss ctx)).
Proof.
  intros Hb0 Hb1 Hn0 Hn1 Hctx Hss.
  induction Hss as [|p rest Hp Hrest IH]; [exact Hctx|].
  cbn [sparkles_loop].
  destruct (sparkles_loop f rest ctx) as [rest' ctx']. cbn [snd] in IH.
  cbv zeta.
  destruct (Qleb (s_maxLife (sparkle_age f p)) (s_life (sparkle_age f p)))
    eqn:E; cbn [snd]; [exact IH|].
  apply Qleb_gt in E.
  destruct (sparkle_age_alpha f p Hn0 Hn1 Hp E) as [Ha0 Ha1].
  apply alpha_inv_mix; assumption.
Qed.

Lemma bars_inv f idxs ctx pk :
  alpha_inv (brightness f) ctx ->
  alpha_inv (brightness f) (fst (fold_left (bar_step f) idxs (ctx, pk))).
Proof.
  revert ctx pk. induction idxs as [|i idxs IH]; intros ctx pk Hctx; simpl;
    [exact Hctx|].
  destruct (peak_visible _); apply IH; repeat apply alpha_inv_paint;
    exact Hctx.
Qed.

(** The bars close the tick: what is left of [draw] from a canvas that
    meets the invariant. *)
Local Ltac finish_with_bars f refs c H :=
  let Hb := fresh "Hbars" in
  pose proof (bars_inv f (seq 0 barsToRender) c (peaks refs) H) as Hb;
  destruct (fold_left _ _ _) as [? ?]; simpl in Hb |- *; exact (proj2 Hb).

(** X18: for a brightness between 0 and 1 the clamp is the identity and,
    with a high-band energy in [0, 1], particle opacities of at most 1 and
    glow opacities in [0, 1], every draw call of the tick is drawn at its
    own opacity times the brightness, on every layer. *)
Lemma uniformly_scaled_up_to_one f refs :
  0 <= brightness f -> brightness f <= 1 -> frame_ok f -> refs_ok refs ->
  uniformly_scaled f refs = true.
Proof.
  intros Hb0 Hb1 (Hn0 & Hn1 & Hspawn) [Hps Hss].
  assert (Hclamp : clamp01 (brightness f) == brightness f).
  { unfold clamp01. rewrite (Q.max_r 0 (brightness f)) by exact Hb0.
    apply Q.min_r. exact Hb1. }
  assert (Hss0 : Forall sparkle_ok
                   match spawnSparkle f with
                   | Some p => sparkles refs ++ [p]
                   | None => sparkles refs
                   end).
  { destruct (spawnSparkle f) as [p|]; [|exact Hss].
    apply Forall_app. split; [exact Hss|]. constructor; [|constructor].
    apply Hspawn. reflexivity. }
  assert (Hall : Forall (scaled (brightness f)) (calls (snd (draw f refs)))).
  { unfold draw.
    assert (H0 : alpha_inv (brightness f)
                   (set_globalAlpha (Qmin 1 (Qmax 0 (brightness f))) (mkCtx 1 []))).
    { fold (clamp01 (brightness f)).
      rewrite set_globalAlpha_in_range by (rewrite Hclamp; assumption).
      split; [exact Hclamp|constructor]. }
    set (c0 := set_globalAlpha _ _) in *.
    assert (H1 : alpha_inv (brightness f)
                   (if enableRain f then paint LRain 1 c0 else c0))
      by (destruct (enableRain f); [apply alpha_inv_paint|]; exact H0).
    set (c1 := if enableRain f then _ else _) in *.
    set (ss0 := match spawnSparkle f with Some p => _ | None => _ end) in *.
    destruct (enableFireworks f).
    - set (rs0 := match spawnRocket f with Some r => _ | None => _ end).
      destruct (rockets_loop_inv f rs0 c1 (particles refs) H1 Hps) as [H2 Hps2].
      destruct (rockets_loop f rs0 (c1, particles refs)) as [rs [c2 ps2]].
      simpl in H2, Hps2.
      pose proof (particles_loop_inv f ps2 c2 Hb0 Hb1 H2 Hps2) as H3.
      destruct (particles_loop f ps2 c2) as [ps3 c3]. simpl in H3.
      destruct (enableBokeh f); [|finish_with_bars f refs c3 H3].
      pose proof (sparkles_loop_inv f ss0 c3 Hb0 Hb1 Hn0 Hn1 H3 Hss0) as H4.
      destruct (sparkles_loop f ss0 c3) as [ss4 c4]. simpl in H4.
      finish_with_bars f refs c4 H4.
    - destruct (enableBokeh f); [|finish_with_bars f refs c1 H1].
      pose proof (sparkles_loop_inv f ss0 c1 Hb0 Hb1 Hn0 Hn1 H1 Hss0) as H4.
      destruct (sparkles_loop f ss0 c1) as [ss4 c4]. simpl in H4.
      finish_with_bars f refs c4 H4. }
  unfold uniformly_scaled. apply forallb_forall. intros c Hc.
  unfold scaled_by_brightness. apply Qeq_bool_iff.
  rewrite Forall_forall in Hall. rewrite Hclamp.
  apply Hall, list_elem_of_In, Hc.
Qed.

Lemma uniformly_scaled_up_to_one_witness :
  uniformly_scaled
    (mkFrame 0.6 true true true 0.5 None
             (Some (mkSparkle 1 1 30 0 0 100)) (fun _ => (1, 1)) (repeat 9 64))
    (mkRefs [mkRocket 5 500 100 (-3)] [mkParticle 0 0 0 0 0.515]
            [mkSparkle 2 2 40 0.2 10 120] (repeat 0 64)) = true.
Proof.
  apply uniformly_scaled_up_to_one; cbn [brightness]; [lra|lra| |].
  - split; [simpl; lra|]. split; [simpl; lra|].
    intros p [= <-]. unfold sparkle_ok. simpl. repeat split; lra.
  - split; simpl.
    + constructor; [unfold particle_ok; simpl; lra|constructor].
    + constructor; [unfold sparkle_ok; simpl; repeat split; lra|constructor].
Defined.

(** C3 at brightness 1.5 with one live firework particle (alpha 0.515
    before the tick, 0.5 when drawn) and silent bars: the particle is
    drawn at global alpha 0.5 * 1.5 = 0.75, not 0.5 * min(1, 1.5) = 0.5;
    the reset to 1.5 is out of range and ignored by the canvas, so the
    bars of the same tick are drawn at 0.75, not at 1.  Without the
    particle the bars are drawn at 1. *)
Theorem brightness_above_one_not_clamped :
  let f := mkFrame 1.5 false true false 0 None None (fun _ => (0, 0))
                   (repeat 2 64) in
  let lit := mkRefs [] [mkParticle 0 0 0 0 0.515] [] (repeat 0 64) in
  let dark := mkRefs [] [] [] (repeat 0 64) in
  (exists c, calls (snd (draw f lit)) !! 0%nat = Some c /\
     layer c = LParticle /\ own_alpha c == 0.5 /\ effective_alpha c == 0.75 /\
     ~ effective_alpha c == own_alpha c * clamp01 (brightness f)) /\
  (exists c, calls (snd (draw f lit)) !! 1%nat = Some c /\
     layer c = LBar /\ own_alpha c == 1 /\ effective_alpha c == 0.75 /\
     ~ effective_alpha c == own_alpha c * clamp01 (brightness f)) /\
  (exists c, calls (snd (draw f dark)) !! 0%nat = Some c /\
     layer c = LBar /\ own_alpha c == 1 /\ effective_alpha c == 1) /\
  uniformly_scaled f lit = false /\
  uniformly_scaled f dark = true.
Proof.
  cbv zeta.
  split; [|split; [|split; [|split]]].
  - eexists; split; [vm_compute; reflexivity|].
    repeat split. intros E. apply Qeq_bool_iff in E. vm_compute in E.
    discriminate.
  - eexists; split; [vm_compute; reflexivity|].
    repeat split. intros E. apply Qeq_bool_iff in E. vm_compute in E.
    discriminate.
  - eexists; split; [vm_compute; reflexivity|]. repeat split.
  - vm_compute. reflexivity.
  - vm_compute. reflexivity.
Qed.

(** * Further properties of the lyric timeline *)

(** ** What [parseLrc] keeps *)

Lemma parseLrc_push_cases line next :
  parseLrc_push line next = [mkLine (t_time line) (t_text line)
                               (Some match next with
                                     | Some n => t_time n - t_time line
                                     | None => 5
                                     end)] \/
  exists n g, next = Some n /\ g = t_time n - t_time line /\ 10 < g /\
    parseLrc_push line next =
      [mkLine (t_time line) (t_text line) (Some (g - 2));
       mkLine (t_time line + (g - 2)) DOTS (Some 2)].
Proof.
  unfold parseLrc_push. destruct next as [n|].
  - destruct (Qltb 10 (t_time n - t_time line)) eqn:E; [|left; reflexivity].
    right. exists n, (t_time n - t_time line). apply Qltb_lt in E. auto.
  - left. reflexivity.
Qed.

(** X1: the timeline loop of [parseLrc] keeps every parsed line, in order,
    with its time and text; it returns between n and 2n - 1 lines for n
    parsed lines; every returned line is a parsed line or a marker
    ("•••", 2.0 s). *)
Theorem parseLrc_keeps_lines (temp : list TempLine) :
  temp_key <$> temp `sublist_of` key <$> parseLrc_loop temp /\
  (length temp <= length (parseLrc_loop temp) <= 2 * length temp - 1)%nat /\
  Forall (fun l => from_input temp l \/ is_marker l) (parseLrc_loop temp).
Proof.
  induction temp as [|t rest IH].
  - simpl. split; [constructor|]. split; [lia|constructor].
  - destruct IH as (Hsub & Hlen & Hall).
    assert (Hall' : Forall (fun l => from_input (t :: rest) l \/ is_marker l)
                      (parseLrc_loop rest)).
    { eapply Forall_impl; [exact Hall|]. intros l [(x & Hx & Hk)|Hm];
        [left; exists x; split; [right; exact Hx|exact Hk]|right; exact Hm]. }
    cbn [parseLrc_loop].
    destruct (parseLrc_push_cases t (head rest))
      as [->|(n & g & Hn & Hg & Hgt & ->)].
    + split; [simpl; apply sublist_skip, Hsub|].
      split; [simpl; lia|].
      constructor; [|exact Hall'].
      left. exists t. split; [left|reflexivity].
    + destruct rest as [|n' rest']; [discriminate|].
      split; [simpl; apply sublist_skip, sublist_cons, Hsub|].
      split; [simpl in *; lia|].
      constructor; [|constructor; [|exact Hall']].
      * left. exists t. split; [left|reflexivity].
      * right. split; reflexivity.
Qed.

(** ** The sync-engine pass over a parsed timeline *)




(** ** No silent stretch inside the span of the lyrics *)






(** ** The lyric offset *)

Lemma findIndex_from_ext {A B} (p : A -> bool) (q : B -> bool) l1 l2 k :
  Forall2 (fun a b => p a = q b) l1 l2 ->
  findIndex_from p l1 k = findIndex_from q l2 k.
Proof.
  intros H. revert k. induction H as [|a b l1 l2 Hab _ IH]; intros k; simpl;
    [reflexivity|].
  rewrite Hab. destruct (q b); [reflexivity|apply IH].
Qed.

Lemma inner_duration_shift delta l n :
  inner_duration (shift delta l) (shift delta n) == inner_duration l n.
Proof.
  unfold inner_duration, shift. cbn [time].
  assert (E : time n + delta - (time l + delta) == time n - time l) by ring.
  destruct (Qeq_bool (time n - time l) 0 || Qleb (time n - time l) (1 # 10))
    eqn:E1;
  destruct (Qeq_bool (time n + delta - (time l + delta)) 0
            || Qleb (time n + delta - (time l + delta)) (1 # 10)) eqn:E2;
    try reflexivity; try exact E; exfalso.
  - apply orb_false_iff in E2 as [_ E2]. apply Qleb_gt in E2.
    apply orb_true_iff in E1 as [E1|E1];
      [apply Qeq_bool_iff in E1|apply Qleb_le in E1]; lra.
  - apply orb_false_iff in E1 as [_ E1]. apply Qleb_gt in E1.
    apply orb_true_iff in E2 as [E2|E2];
      [apply Qeq_bool_iff in E2|apply Qleb_le in E2]; lra.
Qed.

Lemma in_interval_congr T1 T2 a b d d' :
  duration a = Some d -> duration b = Some d' -> d == d' -> ~ d == 0 ->
  T1 - time a == T2 - time b ->
  in_interval T1 a = in_interval T2 b.
Proof.
  intros Ha Hb E Hnz Ht. apply Bool.eq_iff_eq_true.
  rewrite (in_interval_contains _ _ d Ha Hnz).
  rewrite (in_interval_contains _ _ d' Hb) by (rewrite <- E; exact Hnz).
  unfold contains. rewrite Ha, Hb. split.
  - intros (x & [= <-] & H1 & H2). exists d'. repeat split; lra.
  - intros (x & [= <-] & H1 & H2). exists d. repeat split; lra.
Qed.

Lemma activeIndex_shift (L : list LyricLine) (T1 T2 delta : Q) :
  T1 == T2 + delta ->
  activeIndex (normalizeLyrics L) T1
  = activeIndex (normalizeLyrics (shift (- delta) <$> L)) T2.
Proof.
  intros HT. unfold activeIndex, findIndex. apply findIndex_from_ext.
  apply Forall2_same_length_lookup_2.
  { rewrite !length_normalizeLyrics, length_fmap. reflexivity. }
  intros i a b. rewrite !lookup_normalizeLyrics, list_lookup_fmap.
  destruct (L !! i) as [l|] eqn:Hl; [|discriminate].
  simpl. intros [= <-] [= <-].
  assert (Hl' : (shift (- delta) <$> L) !! i = Some (shift (- delta) l))
    by (rewrite list_lookup_fmap, Hl; reflexivity).
  destruct (L !! (i + 1)%nat) as [n|] eqn:Hn.
  - assert (Hn' : (shift (- delta) <$> L) !! (i + 1)%nat
                  = Some (shift (- delta) n))
      by (rewrite list_lookup_fmap, Hn; reflexivity).
    rewrite (normalizeLine_inner L i l n Hl Hn).
    rewrite (normalizeLine_inner _ i _ _ Hl' Hn').
    pose proof (inner_duration_shift (- delta) l n) as E.
    pose proof (inner_duration_pos l n) as Hp.
    eapply in_interval_congr; [reflexivity|reflexivity| | |].
    + symmetry. exact E.
    + lra.
    + unfold shift. cbn [time]. lra.
  - assert (Hn' : (shift (- delta) <$> L) !! (i + 1)%nat = None)
      by (rewrite list_lookup_fmap, Hn; reflexivity).
    rewrite (normalizeLine_last L i l Hl Hn).
    rewrite (normalizeLine_last _ i _ Hl' Hn').
    eapply in_interval_congr; [reflexivity|reflexivity| | |].
    + reflexivity.
    + apply js_or_nonzero. unfold LAST_DEFAULT. lra.
    + unfold shift. cbn [time]. lra.
Qed.

(** X4: a lyric offset acts as a shift of the whole timeline: after
    [adjustOffset] by [amount], the line active at the effective time is the
    line that was active before the adjustment had every line started
    [amount] seconds earlier. *)
Theorem offset_shifts_timeline (L : list LyricLine)
  (currentTime lyricsOffset amount : Q) :
  activeIndex (normalizeLyrics L)
    (effectiveTime currentTime (adjustOffset lyricsOffset amount))
  = activeIndex (normalizeLyrics (shift (- amount) <$> L))
      (effectiveTime currentTime lyricsOffset).
Proof.
  apply activeIndex_shift. unfold effectiveTime, adjustOffset. ring.
Qed.

(** ** The rows of [LyricsView] *)

Lemma findIndex_from_at {A} (p : A -> bool) l (i : nat) :
  findIndex_from p l 0 = Z.of_nat i -> exists x, l !! i = Some x /\ p x = true.
Proof.
  intros H. destruct (findIndex_from_found p l 0)
    as [Hn|(j & x & Hj & Hx & Hp & _)]; [lia|].
  assert (j = i) as -> by lia. eauto.
Qed.

Lemma LyricsView_row L T i r :
  LyricsView_rows L T !! i = Some r ->
  exists l, normalizeLyrics L !! i = Some l /\
            r = rowProps (activeIndex (normalizeLyrics L) T) T i l.
Proof.
  rewrite lookup_LyricsView_rows.
  destruct (normalizeLyrics L !! i) as [l|]; [|discriminate].
  simpl. intros [= <-]. eauto.
Qed.

(** X5: among the rows of [LyricsView] only the row at the active index is
    active; its line holds the current time in its interval and it alone
    receives the current time, every other row receives 0; a past row is
    never active; the distance is never negative and is 0 exactly on the
    active row. *)
Theorem rows_active_row (L : list LyricLine) (T : Q) (i : nat) (r : RowProps) :
  LyricsView_rows L T !! i = Some r ->
  (isActive r = true <-> activeIndex (normalizeLyrics L) T = Z.of_nat i) /\
  (isActive r = true -> contains T (line r) /\ rowTime r = T) /\
  (isActive r = false -> rowTime r = 0) /\
  (isPast r = true -> isActive r = false) /\
  (0 <= distance r)%Z /\
  (distance r = 0%Z <-> isActive r = true).
Proof.
  intros Hr. destruct (LyricsView_row L T i r Hr) as (l & Hl & ->).
  unfold rowProps. cbn [isActive isPast distance rowTime line].
  set (a := activeIndex (normalizeLyrics L) T).
  split; [rewrite Z.eqb_eq; split; intros H; lia|].
  split.
  { intros H. apply Z.eqb_eq in H as Ha. rewrite H. split; [|reflexivity].
    destruct (findIndex_from_at (in_interval T) (normalizeLyrics L) i)
      as (x & Hx & Hp); [unfold a, activeIndex, findIndex in Ha; lia|].
    rewrite Hl in Hx. injection Hx as <-.
    apply (in_interval_normalized L T i l Hl), Hp. }
  split; [intros ->; reflexivity|].
  split; [rewrite Z.ltb_lt, Z.eqb_neq; lia|].
  split; [lia|].
  rewrite Z.eqb_eq. lia.
Qed.

Lemma rows_active_row_witness :
  let r := mkRow (mkLine 5 "b" (Some 5)) true false 0 6 in
  (isActive r = true <->
   activeIndex
     (normalizeLyrics [mkLine 0 "a" (Some 5); mkLine 5 "b" (Some 5)]) 6
   = Z.of_nat 1) /\
  (isActive r = true -> contains 6 (line r) /\ rowTime r = 6) /\
  (isActive r = false -> rowTime r = 0) /\
  (isPast r = true -> isActive r = false) /\
  (0 <= distance r)%Z /\
  (distance r = 0%Z <-> isActive r = true).
Proof.
  apply (rows_active_row [mkLine 0 "a" (Some 5); mkLine 5 "b" (Some 5)] 6 1).
  reflexivity.
Defined.

(** X6: the memo comparator of [LyricLineRow] reads neither the line nor,
    for inactive rows, the time: when two renders of [LyricsView] (of any
    two lyric lists, at any two times) have the same active index and the
    same colour and font scale, every inactive row compares equal to its
    predecessor and keeps its render; the active row compares equal
    exactly when the time is numerically unchanged. *)
Theorem inactive_rows_keep_render (L1 L2 : list LyricLine) (T1 T2 : Q)
  (fill : string) (font : Q) (i : nat) (v1 v2 : RowView) :
  activeIndex (normalizeLyrics L1) T1 = activeIndex (normalizeLyrics L2) T2 ->
  LyricsView_views L1 T1 fill font !! i = Some v1 ->
  LyricsView_views L2 T2 fill font !! i = Some v2 ->
  (isActive (props v1) = false -> areEqual v1 v2 = true) /\
  (isActive (props v1) = true -> areEqual v1 v2 = Qeq_bool T1 T2).
Proof.
  intros Ha. unfold LyricsView_views. rewrite !list_lookup_fmap.
  destruct (LyricsView_rows L1 T1 !! i) as [r1|] eqn:H1; [|discriminate].
  destruct (LyricsView_rows L2 T2 !! i) as [r2|] eqn:H2; [|discriminate].
  simpl. intros [= <-] [= <-].
  destruct (LyricsView_row L1 T1 i r1 H1) as (l1 & _ & ->).
  destruct (LyricsView_row L2 T2 i r2 H2) as (l2 & _ & ->).
  unfold areEqual, rowProps. cbn [props isActive isPast distance rowTime
    fillColor fontSizeScale]. rewrite <- Ha.
  destruct (Z.of_nat i =? activeIndex (normalizeLyrics L1) T1)%Z; simpl.
  - split; [discriminate|reflexivity].
  - split; [|discriminate]. intros _.
    rewrite Bool.eqb_reflx, Z.eqb_refl, String.eqb_refl. simpl.
    apply Qeq_bool_iff. reflexivity.
Qed.

Lemma inactive_rows_keep_render_witness :
  areEqual
    (mkView (mkRow (mkLine 0 "a" (Some 5)) false true 1 0) "#fff" 1)
    (mkView (mkRow (mkLine 0 "x" (Some 5)) false true 1 0) "#fff" 1) = true.
Proof.
  apply (inactive_rows_keep_render
           [mkLine 0 "a" None; mkLine 5 "b" None]
           [mkLine 0 "x" None; mkLine 5 "y" None] 6 7 "#fff" 1 0);
    reflexivity.
Defined.

(** X7: every row of [LyricsView] is drawn with a blur between 0 and 8 px
    and a scale between 0.85 and 1.05; an inactive row has a blur of at
    least 1.5 px and a scale of at most 0.95; the blur is 8 from distance 6
    on and the scale 0.85 from distance 3 on. *)
Theorem rows_blur_scale_bounds (L : list LyricLine) (T : Q) (i : nat)
  (r : RowProps) :
  LyricsView_rows L T !! i = Some r ->
  (0 <= blur r /\ blur r <= 8) /\
  (0.85 <= scale r /\ scale r <= 1.05) /\
  (isActive r = false -> 1.5 <= blur r /\ scale r <= 0.95) /\
  (isActive r = false -> (6 <= distance r)%Z -> blur r == 8) /\
  (isActive r = false -> (3 <= distance r)%Z -> scale r == 0.85).
Proof.
  intros Hr. destruct (LyricsView_row L T i r Hr) as (l & _ & ->).
  unfold blur, scale, rowProps. cbn [isActive distance].
  set (a := activeIndex (normalizeLyrics L) T).
  destruct (Z.of_nat i =? a)%Z eqn:E.
  - repeat split; try discriminate; lra.
  - apply Z.eqb_neq in E.
    assert (Hd : 1 <= inject_Z (Z.abs (Z.of_nat i - a))).
    { change 1 with (inject_Z 1). rewrite <- Zle_Qle. lia. }
    assert (H6 : (6 <= Z.abs (Z.of_nat i - a))%Z ->
                 6 <= inject_Z (Z.abs (Z.of_nat i - a))).
    { intros H. change 6 with (inject_Z 6). rewrite <- Zle_Qle. exact H. }
    assert (H3 : (3 <= Z.abs (Z.of_nat i - a))%Z ->
                 3 <= inject_Z (Z.abs (Z.of_nat i - a))).
    { intros H. change 3 with (inject_Z 3). rewrite <- Zle_Qle. exact H. }
    generalize dependent (inject_Z (Z.abs (Z.of_nat i - a))). intros x Hd H6 H3.
    destruct (Q.min_spec 8 (x * 1.5)) as [[Hm Em]|[Hm Em]];
    destruct (Q.max_spec 0.85 (1 - x * 0.05)) as [[HM EM]|[HM EM]];
      rewrite Em, EM; repeat split; intros; try lra;
      try (specialize (H6 ltac:(assumption)); lra);
      try (specialize (H3 ltac:(assumption)); lra).
Qed.

Lemma rows_blur_scale_bounds_witness :
  let r := mkRow (mkLine 0 "a" (Some 5)) false true 1 0 in
  (0 <= blur r /\ blur r <= 8) /\
  (0.85 <= scale r /\ scale r <= 1.05) /\
  (isActive r = false -> 1.5 <= blur r /\ scale r <= 0.95) /\
  (isActive r = false -> (6 <= distance r)%Z -> blur r == 8) /\
  (isActive r = false -> (3 <= distance r)%Z -> scale r == 0.85).
Proof.
  apply (rows_blur_scale_bounds
           [mkLine 0 "a" (Some 5); mkLine 5 "b" (Some 5)] 6 0).
  reflexivity.
Defined.

(** ** The shape of the fill *)



Lemma inject_nat_succ (n : nat) :
  inject_Z (Z.of_nat (S n)) == inject_Z (Z.of_nat n) + 1.
Proof.
  rewrite Nat2Z.inj_succ, <- Z.add_1_r, inject_Z_plus. reflexivity.
Qed.

Lemma inject_nat_nonneg (n : nat) : 0 <= inject_Z (Z.of_nat n).
Proof. change 0 with (inject_Z 0). rewrite <- Zle_Qle. lia. Qed.





(** ** When the fill completes *)

Lemma active_row_line L T i r :
  LyricsView_rows L T !! i = Some r -> isActive r = true ->
  contains T (line r) /\ rowTime r = T.
Proof.
  intros Hr Hact. destruct (LyricsView_row L T i r Hr) as (l & Hl & ->).
  unfold rowProps in *. cbn [isActive rowTime line] in *.
  rewrite Hact. split; [|reflexivity]. apply Z.eqb_eq in Hact.
  destruct (findIndex_from_at (in_interval T) (normalizeLyrics L) i)
    as (x & Hx & Hp); [unfold activeIndex, findIndex in Hact; lia|].
  rewrite Hl in Hx. injection Hx as <-.
  apply (in_interval_normalized L T i l Hl), Hp.
Qed.

(** X9: on the active row of [LyricsView] the elapsed time is the time
    since the line's start and stays below the line's duration d.  A line
    shorter than 0.5 s is therefore never completely filled while it is
    active (the fill always takes at least 0.5 s); for a line of at least
    0.5 s the fill is due no later than the line's end. *)
Theorem active_fill_completion (L : list LyricLine) (T : Q) (i : nat)
  (r : RowProps) :
  LyricsView_rows L T !! i = Some r -> isActive r = true ->
  exists d, duration (line r) = Some d /\
    elapsed r == T - time (line r) /\ elapsed r < d /\
    (d < 0.5 -> progress r < 1) /\
    (0.5 <= d -> fillDuration r <= d).
Proof.
  intros Hr Hact.
  destruct (active_row_line L T i r Hr Hact) as [(d & Hd & Hlo & Hhi) HT].
  exists d. split; [exact Hd|].
  assert (He : elapsed r == T - time (line r)).
  { unfold elapsed. rewrite HT. apply Q.max_r. lra. }
  assert (Hnz : ~ d == 0) by lra.
  assert (Hf : fillDuration r = Qmax 0.5 (d * 0.85)).
  { unfold fillDuration. rewrite Hd, (js_or_truthy d 3 Hnz). reflexivity. }
  split; [exact He|]. split; [lra|]. split.
  - intros Hshort.
    assert (Hf5 : fillDuration r == 0.5)
      by (rewrite Hf; apply Q.max_l; lra).
    unfold progress.
    assert (elapsed r / fillDuration r < 1)
      by (apply Qlt_shift_div_r; lra).
    destruct (Q.min_spec 1 (elapsed r / fillDuration r)) as [[H1 E]|[H1 E]];
      rewrite E; lra.
  - intros Hlong. rewrite Hf.
    destruct (Q.max_spec 0.5 (d * 0.85)) as [[H1 E]|[H1 E]]; rewrite E; lra.
Qed.

Lemma active_fill_completion_witness :
  let r := mkRow (mkLine 0 "a" (Some 0.2)) true false 0 0.15 in
  exists d, duration (line r) = Some d /\
    elapsed r == 0.15 - time (line r) /\ elapsed r < d /\
    (d < 0.5 -> progress r < 1) /\
    (0.5 <= d -> fillDuration r <= d).
Proof.
  intros r.
  apply (active_fill_completion
           [mkLine 0 "a" None; mkLine 0.2 "b" None] 0.15 0 r);
    reflexivity.
Defined.

(** * Further properties of the spectrum tick *)

(** ** Band energies *)

Lemma bin_range dataArray i v : bin dataArray i = Some v -> 0 <= v /\ v <= 255.
Proof.
  unfold bin. destruct (dataArray !! i) as [b|]; [|discriminate].
  simpl. intros [= <-]. pose proof (Byte.to_N_bounded b) as Hb.
  split.
  - change 0 with (inject_Z 0). rewrite <- Zle_Qle. lia.
  - change 255 with (inject_Z 255). rewrite <- Zle_Qle. lia.
Qed.

Lemma band_fold_bounds dataArray lo n a :
  (lo + n <= length dataArray)%nat ->
  exists r,
    fold_left (fun acc i =>
                 match acc, bin dataArray i with
                 | Some a, Some v => Some (a + v)
                 | _, _ => None
                 end) (seq lo n) (Some a) = Some r /\
    a <= r /\ r <= a + 255 * inject_Z (Z.of_nat n).
Proof.
  revert lo a. induction n as [|n IH]; intros lo a Hlen.
  - exists a. split; [reflexivity|].
    change (inject_Z (Z.of_nat 0)) with 0. split; lra.
  - cbn [seq fold_left]. destruct (bin dataArray lo) as [v|] eqn:Hv.
    + destruct (IH (S lo) (a + v)) as (r & Hr & H0 & H1); [lia|].
      destruct (bin_range _ _ _ Hv) as [Hv0 Hv1].
      pose proof (inject_nat_succ n) as Hn.
      exists r. split; [exact Hr|]. split; [lra|].
      rewrite Hn. lra.
    + unfold bin in Hv. destruct (dataArray !! lo) eqn:E; [discriminate|].
      apply lookup_ge_None in E. lia.
Qed.

Lemma band_fold_none dataArray l :
  fold_left (fun acc i =>
               match acc, bin dataArray i with
               | Some a, Some v => Some (a + v)
               | _, _ => None
               end) l None = None.
Proof. induction l as [|i l IH]; [reflexivity|exact IH]. Qed.

Lemma band_norm_range dataArray lo hi :
  (lo < hi)%nat -> (hi <= length dataArray)%nat ->
  exists e, band_norm true dataArray lo hi = Some e /\ 0 <= e /\ e <= 1.
Proof.
  intros Hlt Hlen. unfold band_norm, band_sum.
  destruct (band_fold_bounds dataArray lo (hi - lo) 0) as (r & -> & H0 & H1);
    [lia|].
  eexists; split; [reflexivity|].
  assert (Hn : 1 <= inject_Z (Z.of_nat (hi - lo))).
  { change 1 with (inject_Z 1). rewrite <- Zle_Qle. lia. }
  generalize dependent (inject_Z (Z.of_nat (hi - lo))). intros n H1 Hn.
  split.
  - apply Qle_shift_div_l; [lra|]. apply Qle_shift_div_l; lra.
  - apply Qle_shift_div_r; [lra|]. apply Qle_shift_div_r; lra.
Qed.

Lemma band_fold_short dataArray lo n acc :
  (0 < n)%nat -> (length dataArray < lo + n)%nat ->
  fold_left (fun acc i =>
               match acc, bin dataArray i with
               | Some a, Some v => Some (a + v)
               | _, _ => None
               end) (seq lo n) acc = None.
Proof.
  revert lo acc. induction n as [|n IH]; intros lo acc Hn Hlen; [lia|].
  cbn [seq fold_left].
  destruct (decide (lo < length dataArray)%nat) as [Hlo|Hlo].
  - apply IH; lia.
  - assert (Hb : bin dataArray lo = None).
    { unfold bin. rewrite (proj2 (lookup_ge_None dataArray lo)) by lia.
      reflexivity. }
    rewrite Hb. destruct acc; apply band_fold_none.
Qed.

(** X10: with at least 150 frequency bins (the analyser supplies 1024) the
    three band energies of a playing tick are numbers in [0, 1], so a
    rocket is launched with a chance between 0.01 and 0.09 per tick and a
    glow with a chance of at most 0.4; when nothing plays the energies are
    0.  With fewer than 150 bins the high band is not a number. *)
Theorem band_energies_in_range (dataArray : list Byte.byte) :
  ((150 <= length dataArray)%nat ->
   exists b m h,
     normBass_of true dataArray = Some b /\
     normMid_of true dataArray = Some m /\
     normHigh_of true dataArray = Some h /\
     (0 <= b /\ b <= 1) /\ (0 <= m /\ m <= 1) /\ (0 <= h /\ h <= 1) /\
     (0.01 <= rocket_chance b /\ rocket_chance b <= 0.09) /\
     (0 <= sparkle_chance m /\ sparkle_chance m <= 0.4)) /\
  ((length dataArray < 150)%nat -> normHigh_of true dataArray = None) /\
  (exists z, normBass_of false dataArray = Some z /\
             normMid_of false dataArray = Some z /\
             normHigh_of false dataArray = Some z /\ z == 0).
Proof.
  split; [|split].
  - intros Hlen.
    destruct (band_norm_range dataArray 0 8) as (b & Hb & Hb0 & Hb1); [lia..|].
    destruct (band_norm_range dataArray 20 80) as (m & Hm & Hm0 & Hm1); [lia..|].
    destruct (band_norm_range dataArray 80 150) as (h & Hh & Hh0 & Hh1);
      [lia..|].
    exists b, m, h. unfold rocket_chance, sparkle_chance.
    repeat split; try assumption; lra.
  - intros Hlen. unfold normHigh_of, band_norm, band_sum.
    rewrite band_fold_short by lia. reflexivity.
  - exists (0 / 255). repeat split; reflexivity.
Qed.

Lemma band_energies_in_range_witness :
  (exists b m h,
     normBass_of true (repeat "200"%byte 150) = Some b /\
     normMid_of true (repeat "200"%byte 150) = Some m /\
     normHigh_of true (repeat "200"%byte 150) = Some h /\
     (0 <= b /\ b <= 1) /\ (0 <= m /\ m <= 1) /\ (0 <= h /\ h <= 1) /\
     (0.01 <= rocket_chance b /\ rocket_chance b <= 0.09) /\
     (0 <= sparkle_chance m /\ sparkle_chance m <= 0.4)) /\
  normHigh_of true (repeat "200"%byte 100) = None.
Proof.
  split.
  - apply (band_energies_in_range (repeat "200"%byte 150)). simpl. lia.
  - apply (band_energies_in_range (repeat "200"%byte 100)). simpl. lia.
Defined.

(** ** Bars and peaks *)

Lemma boost_range i : 1 <= boost i /\ boost i <= 1.5.
Proof.
  unfold boost.
  destruct (Nat.ltb_spec i 10), (Nat.ltb_spec 50 i); try lia; split; lra.
Qed.

(** X11: for a magnitude factor in [0, 1] and a view height that is not
    negative, a bar is at least 2 px and at most max(2, 0.675 * height)
    high, at most max(2, 0.45 * height) for the bars 10 to 50, which get
    no boost; a silent bin gives a bar of exactly 2 px. *)
Theorem barHeight_bounds (pw height : Q) (i : nat) :
  0 <= pw -> pw <= 1 -> 0 <= height ->
  2 <= barHeight pw height i /\
  barHeight pw height i <= Qmax 2 (0.675 * height) /\
  ((10 <= i <= 50)%nat -> barHeight pw height i <= Qmax 2 (0.45 * height)) /\
  (pw == 0 -> barHeight pw height i == 2).
Proof.
  intros Hp0 Hp1 Hh. unfold barHeight.
  destruct (boost_range i) as [Hb0 Hb1].
  assert (Hmid : (10 <= i <= 50)%nat -> boost i == 1).
  { intros Hi. unfold boost.
    destruct (Nat.ltb_spec i 10), (Nat.ltb_spec 50 i); try lia. lra. }
  generalize dependent (boost i). intros b Hb0 Hb1 Hmid.
  assert (Hx0 : 0 <= pw * height) by (apply Qmult_le_0_compat; assumption).
  assert (Hx1 : pw * height <= height) by nra.
  assert (Hz : pw == 0 -> pw * height == 0) by (intros ->; ring).
  generalize dependent (pw * height). intros x Hx0 Hx1 Hz.
  assert (Hxb : 0 <= x * b /\ x * b <= 1.5 * x) by (split; nra).
  assert (Hx : 0 <= x * 0.45 * b) by lra.
  assert (Hy : x * 0.45 * b <= 0.675 * height) by lra.
  split; [apply Q.le_max_l|]. split; [|split].
  - apply Q.max_lub; [apply Q.le_max_l|].
    eapply Qle_trans; [exact Hy|apply Q.le_max_r].
  - intros Hi. specialize (Hmid Hi).
    apply Q.max_lub; [apply Q.le_max_l|].
    eapply Qle_trans; [|apply Q.le_max_r]. nra.
  - intros H0. apply Q.max_l. rewrite (Hz H0). lra.
Qed.

Lemma barHeight_bounds_witness :
  2 <= barHeight 1 1000 60 /\
  barHeight 1 1000 60 <= Qmax 2 (0.675 * 1000) /\
  ((10 <= 60 <= 50)%nat -> barHeight 1 1000 60 <= Qmax 2 (0.45 * 1000)) /\
  (1 == 0 -> barHeight 1 1000 60 == 2).
Proof.
  apply (barHeight_bounds 1 1000 60); lra.
Defined.

Lemma peak_update_bounds h p M :
  2 <= h -> h <= M -> p <= M ->
  1.4 <= peak_update h p /\ peak_update h p <= M.
Proof.
  intros H2 HM Hp. unfold peak_update. destruct (Qltb p h) eqn:E.
  - split; lra.
  - apply Qltb_ge in E. split; lra.
Qed.

(** X12: with bars between 2 px (the least height a bar has) and M, and a
    stored peak of at most M, the stored peak after any non-empty run of
    frames lies between 1.4 and M: it never exceeds the highest bar seen
    and never falls below 1.4. *)
Theorem peak_run_bounds (heights : list Q) (peak0 M : Q) :
  heights <> [] -> Forall (fun h => 2 <= h /\ h <= M) heights -> peak0 <= M ->
  1.4 <= peak_run heights peak0 /\ peak_run heights peak0 <= M.
Proof.
  intros Hne Hall. revert peak0.
  induction Hall as [|h hs [Hh2 HhM] Hhs IH]; intros peak0 Hp;
    [contradiction|].
  destruct (peak_update_bounds h peak0 M Hh2 HhM Hp) as [Hlo Hhi].
  unfold peak_run. simpl. destruct hs as [|h' hs'].
  - simpl. split; assumption.
  - apply (IH ltac:(discriminate) (peak_update h peak0) Hhi).
Qed.

Lemma peak_run_bounds_witness :
  1.4 <= peak_run [300; 2; 2] 0 /\ peak_run [300; 2; 2] 0 <= 300.
Proof.
  apply (peak_run_bounds [300; 2; 2] 0 300); [discriminate| |lra].
  repeat constructor; lra.
Defined.

Lemma peak_silent_step p B :
  2 <= B -> p <= B -> peak_update 2 p <= Qmax 2 (B - 0.5).
Proof.
  intros HB Hp. unfold peak_update. destruct (Qltb p 2) eqn:E.
  - apply Q.le_max_l.
  - apply Qltb_ge in E. eapply Qle_trans; [|apply Q.le_max_r]. lra.
Qed.

Lemma peak_silent_bound n p0 :
  peak_run (repeat 2 n) p0 <= Qmax 2 (p0 - 0.5 * inject_Z (Z.of_nat n)).
Proof.
  induction n as [|n IH].
  - unfold peak_run. cbn [repeat fold_left].
    change (inject_Z (Z.of_nat 0)) with 0.
    eapply Qle_trans; [|apply Q.le_max_r]. lra.
  - replace (repeat 2 (S n)) with (repeat 2 n ++ [2])
      by (symmetry; apply repeat_cons).
    rewrite peak_run_snoc. pose proof (inject_nat_succ n) as Hn.
    generalize dependent (inject_Z (Z.of_nat (S n))). intros m Hm.
    generalize dependent (inject_Z (Z.of_nat n)). intros k IH Hm.
    eapply Qle_trans.
    + apply (peak_silent_step _ (Qmax 2 (p0 - 0.5 * k)));
        [apply Q.le_max_l|exact IH].
    + destruct (Q.max_spec 2 (p0 - 0.5 * k)) as [[H1 E]|[H1 E]]; rewrite E;
        apply Q.max_lub; try apply Q.le_max_l;
        try (eapply Qle_trans; [|apply Q.le_max_r]; lra);
        try (eapply Qle_trans; [|apply Q.le_max_l]; lra).
Qed.

(** X13: over silent bars (2 px high) a stored peak p loses at least 0.5
    per frame until it is at most 2: after n frames with
    p <= 5 + 0.5 * n the peak indicator is no longer painted, and since
    the bound holds for every later n it is not painted again while the
    silence lasts. *)
Theorem peak_hidden_after_silence (peak0 : Q) (n : nat) :
  peak0 <= 5 + 0.5 * inject_Z (Z.of_nat n) ->
  peak_visible (peak_run (repeat 2 n) peak0) = false.
Proof.
  intros H. unfold peak_visible. apply Qltb_ge.
  eapply Qle_trans; [apply peak_silent_bound|].
  apply Q.max_lub; lra.
Qed.

Lemma peak_hidden_after_silence_witness :
  peak_visible (peak_run (repeat 2 100) 55) = false.
Proof.
  apply (peak_hidden_after_silence 55 100). vm_compute. discriminate.
Defined.

(** ** The peaks across a tick *)

(** The peak array after the bar loop does not depend on the canvas. *)
Lemma bars_peaks f idxs ctx pk :
  snd (fold_left (bar_step f) idxs (ctx, pk)) =
  fold_left (fun pk i =>
               <[i := peak_update (default 0 (barHeights f !! i))
                                  (default 0 (pk !! i))]> pk) idxs pk.
Proof.
  revert ctx pk. induction idxs as [|i idxs IH]; intros ctx pk;
    [reflexivity|].
  cbn [fold_left]. unfold bar_step at 2.
  destruct (peak_visible _); apply IH.
Qed.

Lemma peaks_fold_lookup f a n (pk : list Q) i :
  fold_left (fun pk i =>
               <[i := peak_update (default 0 (barHeights f !! i))
                                  (default 0 (pk !! i))]> pk) (seq a n) pk !! i
  = if decide (a <= i < a + n)%nat
    then (fun p => peak_update (default 0 (barHeights f !! i)) p) <$> pk !! i
    else pk !! i.
Proof.
  revert a pk. induction n as [|n IH]; intros a pk.
  - cbn [seq fold_left]. destruct (decide _); [lia|reflexivity].
  - cbn [seq fold_left]. rewrite IH.
    destruct (decide (a = i)) as [->|Hne].
    + destruct (decide (S i <= i < S i + n)%nat); [lia|].
      destruct (decide (i <= i < i + S n)%nat); [|lia].
      destruct (pk !! i) as [p|] eqn:Hp.
      * rewrite list_lookup_insert_eq by (apply lookup_lt_Some in Hp; exact Hp).
        reflexivity.
      * rewrite list_insert_ge by (apply lookup_ge_None in Hp; exact Hp).
        rewrite Hp. reflexivity.
    + rewrite list_lookup_insert_ne by exact Hne.
      destruct (decide (S a <= i < S a + n)%nat),
               (decide (a <= i < a + S n)%nat); try lia; reflexivity.
Qed.

Lemma draw_peaks f refs :
  exists ctx,
    peaks (fst (draw f refs))
    = snd (fold_left (bar_step f) (seq 0 barsToRender) (ctx, peaks refs)).
Proof.
  unfold draw.
  destruct (enableFireworks f).
  - destruct (rockets_loop f _ _) as [rs [c2 ps2]].
    destruct (particles_loop f ps2 c2) as [ps3 c3].
    destruct (enableBokeh f).
    + destruct (sparkles_loop f _ c3) as [ss4 c4].
      exists c4. destruct (fold_left _ _ _). reflexivity.
    + exists c3. destruct (fold_left _ _ _). reflexivity.
  - destruct (enableBokeh f).
    + destruct (sparkles_loop f _ _) as [ss4 c4].
      exists c4. destruct (fold_left _ _ _). reflexivity.
    + match goal with |- context [fold_left _ _ (?c, _)] => exists c end.
      destruct (fold_left _ _ _). reflexivity.
Qed.

(** X14: one tick of [draw] replaces each of the first 64 stored peaks by
    [peak_update] of that bar's height and the stored value, whatever the
    effects and the brightness; the peak array keeps its length and any
    entry past the 64th is left alone. *)
Theorem draw_updates_peaks (f : Frame) (refs : Refs) (i : nat) :
  length (peaks (fst (draw f refs))) = length (peaks refs) /\
  ((i < 64)%nat ->
   peaks (fst (draw f refs)) !! i
   = (fun p => peak_update (default 0 (barHeights f !! i)) p) <$> peaks refs !! i) /\
  ((64 <= i)%nat -> peaks (fst (draw f refs)) !! i = peaks refs !! i).
Proof.
  destruct (draw_peaks f refs) as (ctx & ->). rewrite bars_peaks.
  split; [|split].
  - generalize (peaks refs). generalize (seq 0 barsToRender).
    induction l as [|j l IH]; intros pk; [reflexivity|].
    cbn [fold_left]. rewrite IH. apply length_insert.
  - intros Hi. rewrite peaks_fold_lookup. unfold barsToRender.
    destruct (decide _); [reflexivity|lia].
  - intros Hi. rewrite peaks_fold_lookup. unfold barsToRender.
    destruct (decide _); [lia|reflexivity].
Qed.

Lemma draw_updates_peaks_witness :
  peaks (fst (draw (mkFrame 1 false false false 0 None None (fun _ => (0, 0))
                            (repeat 2 64))
                   (mkRefs [] [] [] (repeat 0 64)))) !! 3%nat
  = (fun p => peak_update (default 0 (repeat 2 64 !! 3%nat)) p)
      <$> repeat 0 64 !! 3%nat.
Proof.
  apply (draw_updates_peaks
           (mkFrame 1 false false false 0 None None (fun _ => (0, 0))
                    (repeat 2 64))
           (mkRefs [] [] [] (repeat 0 64)) 3).
  lia.
Defined.

(** ** Rockets and explosion particles *)

Lemma length_explode f r : length (explode f r) = 40%nat.
Proof. unfold explode. rewrite length_map, length_seq. reflexivity. Qed.

Lemma explode_alpha f r : Forall (fun p => p_alpha p = 1) (explode f r).
Proof.
  unfold explode. apply Forall_fmap, Forall_forall. intros j _. reflexivity.
Qed.

(** X15: one pass of "Update Rockets" paints every rocket once, keeps the
    survivors (still rising faster than 2 px per tick and below their
    target) and replaces each of the others by exactly 40 particles of
    opacity 1, appended to the particles already there. *)
Theorem rockets_loop_conservation (f : Frame) (rs : list FireworkRocket)
  (ctx : Ctx) (ps : list FireworkParticle) :
  (length (fst (rockets_loop f rs (ctx, ps))) <= length rs)%nat /\
  (exists new,
     snd (snd (rockets_loop f rs (ctx, ps))) = ps ++ new /\
     Forall (fun p => p_alpha p = 1) new /\
     length new
     = (40 * (length rs - length (fst (rockets_loop f rs (ctx, ps)))))%nat) /\
  length (calls (fst (snd (rockets_loop f rs (ctx, ps)))))
  = (length (calls ctx) + length rs)%nat /\
  Forall (fun r => r_vy r < -2 /\ r_targetY r < r_y r)
         (fst (rockets_loop f rs (ctx, ps))).
Proof.
  induction rs as [|r rest IH].
  - simpl. split; [lia|]. split; [|split; [lia|constructor]].
    exists []. rewrite app_nil_r. split; [reflexivity|]. split; [constructor|].
    reflexivity.
  - cbn [rockets_loop].
    destruct (rockets_loop f rest (ctx, ps)) as [rest' [c ps']].
    cbn [fst snd] in IH. destruct IH as (Hlen & (new & -> & Hnew & Hcount) & Hcalls & Hsurv).
    cbv zeta. cbn [r_vy r_y r_targetY].
    destruct (Qleb (-2) (r_vy r + 0.2) || Qleb (r_y r + r_vy r) (r_targetY r))
      eqn:E; cbn [fst snd paint calls length].
    + split; [lia|]. split; [|split].
      * exists (new ++ explode f (mkRocket (r_x r) (r_y r + r_vy r)
                                        (r_targetY r) (r_vy r + 0.2))).
        rewrite app_assoc. split; [reflexivity|].
        split; [apply Forall_app; split; [exact Hnew|apply explode_alpha]|].
        rewrite length_app, length_explode, Hcount. lia.
      * rewrite length_app. simpl. lia.
      * exact Hsurv.
    + apply orb_false_iff in E as [E1 E2].
      apply Qleb_gt in E1, E2.
      split; [lia|]. split; [|split].
      * exists new. split; [reflexivity|]. split; [exact Hnew|].
        rewrite Hcount. lia.
      * rewrite length_app. simpl. lia.
      * constructor; [|exact Hsurv]. simpl. split; assumption.
Qed.

Lemma particles_ticks_nil f k ctx : fst (particles_ticks f k [] ctx) = [].
Proof. induction k as [|k IH]; [reflexivity|exact IH]. Qed.

Lemma particles_ticks_alive f k p ctx :
  0 < p_alpha p - 0.015 * inject_Z (Z.of_nat k) ->
  exists q, fst (particles_ticks f k [p] ctx) = [q] /\
    p_alpha q == p_alpha p - 0.015 * inject_Z (Z.of_nat k) /\
    p_vx q = p_vx p /\
    p_x q == p_x p + inject_Z (Z.of_nat k) * p_vx p /\
    p_vy q == p_vy p + 0.15 * inject_Z (Z.of_nat k).
Proof.
  revert p ctx. induction k as [|k IH]; intros p ctx Hpos.
  - exists p. change (inject_Z (Z.of_nat 0)) with 0.
    split; [reflexivity|]. repeat split; try reflexivity; ring.
  - pose proof (inject_nat_succ k) as Hk.
    pose proof (inject_nat_nonneg k) as Hk0.
    cbn [particles_ticks particles_loop]. cbv zeta. cbn [p_alpha].
    assert (E : Qleb (p_alpha p - 0.015) 0 = false) by (apply Qleb_gt; lra).
    rewrite E.
    set (p' := mkParticle _ _ _ _ _).
    destruct (IH p' (set_globalAlpha (brightness f)
                       (paint LParticle (p_alpha p - 0.015)
                          (set_globalAlpha ((p_alpha p - 0.015) * brightness f)
                             ctx))))
      as (q & Hq & Ha & Hvx & Hx & Hvy).
    { unfold p'. cbn [p_alpha]. lra. }
    exists q. split; [exact Hq|]. unfold p' in *. cbn [p_alpha p_vx p_x p_vy] in *.
    rewrite Ha, Hvx, Hx, Hvy, Hk. repeat split; try reflexivity; ring.
Qed.

Lemma particles_ticks_gone f k p ctx :
  (0 < k)%nat -> p_alpha p - 0.015 * inject_Z (Z.of_nat k) <= 0 ->
  fst (particles_ticks f k [p] ctx) = [].
Proof.
  revert p ctx. induction k as [|k IH]; intros p ctx Hk Hle; [lia|].
  pose proof (inject_nat_succ k) as Hs.
  cbn [particles_ticks particles_loop]. cbv zeta. cbn [p_alpha].
  destruct (Qleb (p_alpha p - 0.015) 0) eqn:E.
  - apply particles_ticks_nil.
  - apply Qleb_gt in E. apply IH.
    + destruct k; [|lia]. change (inject_Z (Z.of_nat 1)) with 1 in Hle. lra.
    + cbn [p_alpha]. lra.
Qed.

(** X16: a particle of an explosion (opacity 1) is drawn on each of its
    first 66 ticks and removed on the 67th; while it lives its opacity
    after k ticks is 1 - 0.015 k, it has moved k times its horizontal
    speed sideways and its vertical speed has grown by 0.15 k. *)
Theorem particle_lifetime (f : Frame) (p : FireworkParticle) (ctx : Ctx)
  (k : nat) :
  p_alpha p == 1 ->
  ((k <= 66)%nat ->
   exists q, fst (particles_ticks f k [p] ctx) = [q] /\
     p_alpha q == 1 - 0.015 * inject_Z (Z.of_nat k) /\
     p_x q == p_x p + inject_Z (Z.of_nat k) * p_vx p /\
     p_vy q == p_vy p + 0.15 * inject_Z (Z.of_nat k)) /\
  ((67 <= k)%nat -> fst (particles_ticks f k [p] ctx) = []).
Proof.
  intros Ha. split.
  - intros Hk.
    assert (Hq : inject_Z (Z.of_nat k) <= 66).
    { change 66 with (inject_Z 66). rewrite <- Zle_Qle. lia. }
    destruct (particles_ticks_alive f k p ctx)
      as (q & Hq1 & Hq2 & _ & Hq3 & Hq4); [lra|].
    exists q. split; [exact Hq1|]. split; [lra|]. split; assumption.
  - intros Hk. apply particles_ticks_gone; [lia|].
    assert (Hq : 67 <= inject_Z (Z.of_nat k)).
    { change 67 with (inject_Z 67). rewrite <- Zle_Qle. lia. }
    lra.
Qed.

Lemma particle_lifetime_witness :
  (exists q, fst (particles_ticks
                    (mkFrame 1 false true false 0 None None (fun _ => (0, 0)) [])
                    66 [mkParticle 5 5 1 (-2) 1] (mkCtx 1 [])) = [q] /\
     p_alpha q == 1 - 0.015 * inject_Z (Z.of_nat 66) /\
     p_x q == 5 + inject_Z (Z.of_nat 66) * 1 /\
     p_vy q == -2 + 0.15 * inject_Z (Z.of_nat 66)) /\
  fst (particles_ticks
         (mkFrame 1 false true false 0 None None (fun _ => (0, 0)) [])
         67 [mkParticle 5 5 1 (-2) 1] (mkCtx 1 [])) = [].
Proof.
  split.
  - apply (particle_lifetime _ (mkParticle 5 5 1 (-2) 1) (mkCtx 1 []) 66);
      [reflexivity|lia].
  - apply (particle_lifetime _ (mkParticle 5 5 1 (-2) 1) (mkCtx 1 []) 67);
      [reflexivity|lia].
Defined.





(** ** Rain *)

(** X19: a tick of the rain loop keeps the pool and each drop's length,
    speed and opacity; a drop at most [height] after its fall keeps its
    column and falls by its speed plus 15 times the bass energy, a drop
    beyond is recycled to the top ([y = -length]); so with a length and
    a view height that are not negative no drop ends the tick below the
    bottom edge. *)
Theorem rain_loop_keeps_pool (normBass width height : Q) (rnd : nat -> Q)
  (rain : list RainDrop) (i : nat) (d : RainDrop) :
  rain !! i = Some d ->
  length (rain_loop normBass width height rnd rain) = length rain /\
  exists d', rain_loop normBass width height rnd rain !! i = Some d' /\
    d_length d' = d_length d /\ d_speed d' = d_speed d /\
    d_opacity d' = d_opacity d /\
    ((d_x d' = d_x d /\ d_y d' = d_y d + (d_speed d + normBass * 15) /\
      d_y d' <= height) \/
     (d_x d' = rnd i * width /\ d_y d' = - d_length d /\
      height < d_y d + (d_speed d + normBass * 15))) /\
    (0 <= d_length d -> 0 <= height -> d_y d' <= height).
Proof.
  intros Hd. unfold rain_loop. split; [apply length_imap|].
  rewrite list_lookup_imap, Hd. simpl. eexists; split; [reflexivity|].
  unfold rain_step.
  destruct (Qltb height (d_y d + (d_speed d + normBass * 15))) eqn:E;
    cbn [d_x d_y d_length d_speed d_opacity].
  - apply Qltb_lt in E. repeat split; try reflexivity.
    + right. repeat split; try reflexivity. exact E.
    + intros Hl Hh. lra.
  - apply Qltb_ge in E. repeat split; try reflexivity.
    + left. repeat split; try reflexivity. exact E.
    + intros _ _. exact E.
Qed.

Lemma rain_loop_keeps_pool_witness :
  exists d',
    rain_loop 1 800 600 (fun _ => 0.5) [mkDrop 3 595 20 7 0.3] !! 0%nat
      = Some d' /\
    d_y d' = - 20 /\ d_x d' = 0.5 * 800.
Proof.
  destruct (rain_loop_keeps_pool 1 800 600 (fun _ => 0.5)
              [mkDrop 3 595 20 7 0.3] 0 (mkDrop 3 595 20 7 0.3) eq_refl)
    as (_ & d' & Hd' & _ & _ & _ & Hcase & _).
  exists d'. split; [exact Hd'|].
  destruct Hcase as [(_ & Hy & _)|(Hx & Hy & _)].
  - exfalso. vm_compute in Hd'. injection Hd' as <-.
    vm_compute in Hy. discriminate.
  - split; assumption.
Defined.

(** ** Glows *)

Lemma sparkle_age_glow f p :
  0 <= normHigh f -> normHigh f <= 1 -> glow_ok p ->
  s_life (sparkle_age f p) < s_maxLife (sparkle_age f p) ->
  glow_ok (sparkle_age f p).
Proof.
  intros Hn0 Hn1 (Ha0 & Ha1 & Hl) Hlive. unfold glow_ok, sparkle_age in *.
  cbn [s_alpha s_life s_maxLife] in *.
  set (g := 0.3 + normHigh f * 0.4).
  assert (Hg : 0 <= g /\ g <= 0.7) by (unfold g; lra).
  split; [|split; [|lra]].
  - destruct (Qltb (s_life p + 1) 30) eqn:E1.
    + apply Qltb_lt in E1.
      assert (Hx : 0 <= (s_life p + 1) / 30)
        by (apply Qle_shift_div_l; lra).
      nra.
    + destruct (Qltb (s_maxLife p - 30) (s_life p + 1)) eqn:E2; [|lra].
      assert (Hx : 0 <= (s_maxLife p - (s_life p + 1)) / 30)
        by (apply Qle_shift_div_l; lra).
      nra.
  - destruct (Qltb (s_life p + 1) 30) eqn:E1.
    + apply Qltb_lt in E1.
      assert (Hx : 0 <= (s_life p + 1) / 30 /\ (s_life p + 1) / 30 <= 1)
        by (split; [apply Qle_shift_div_l|apply Qle_shift_div_r]; lra).
      nra.
    + destruct (Qltb (s_maxLife p - 30) (s_life p + 1)) eqn:E2; [|lra].
      apply Qltb_lt in E2.
      assert (Hx : 0 <= (s_maxLife p - (s_life p + 1)) / 30 /\
                   (s_maxLife p - (s_life p + 1)) / 30 <= 1)
        by (split; [apply Qle_shift_div_l|apply Qle_shift_div_r]; lra).
      nra.
Qed.

(** X20: with a high-band energy in [0, 1], a pass of the bokeh loop over
    glows of opacity in [0, 0.7] never adds a glow, keeps only glows whose
    life is still below their lifetime, and leaves every kept glow with an
    opacity in [0, 0.7]; a freshly spawned glow (opacity 0, life 0,
    lifetime in [90, 150)) meets the condition. *)
Theorem sparkles_loop_keeps_glows (f : Frame) (ss : list Sparkle) (ctx : Ctx)
  (width height u1 u2 u3 u4 : Q) :
  0 <= normHigh f -> normHigh f <= 1 -> Forall glow_ok ss ->
  (length (fst (sparkles_loop f ss ctx)) <= length ss)%nat /\
  Forall (fun p => glow_ok p /\ s_life p < s_maxLife p)
         (fst (sparkles_loop f ss ctx)) /\
  glow_ok (spawn_sparkle width height u1 u2 u3 u4) /\
  (0 <= u4 -> u4 < 1 ->
   90 <= s_maxLife (spawn_sparkle width height u1 u2 u3 u4) /\
   s_maxLife (spawn_sparkle width height u1 u2 u3 u4) < 150).
Proof.
  intros Hn0 Hn1 Hss. split; [|split; [|split]].
  - clear Hss. induction ss as [|p rest IH]; [simpl; lia|].
    cbn [sparkles_loop]. destruct (sparkles_loop f rest ctx) as [rest' c].
    cbv zeta. cbn [fst] in IH.
    destruct (Qleb _ _); cbn [fst length]; lia.
  - induction Hss as [|p rest Hp Hrest IH]; [constructor|].
    cbn [sparkles_loop]. destruct (sparkles_loop f rest ctx) as [rest' c].
    cbv zeta. cbn [fst] in IH.
    destruct (Qleb (s_maxLife (sparkle_age f p)) (s_life (sparkle_age f p)))
      eqn:E; cbn [fst]; [exact IH|].
    apply Qleb_gt in E. constructor; [|exact IH].
    split; [apply sparkle_age_glow; assumption|exact E].
  - unfold glow_ok, spawn_sparkle. simpl. repeat split; lra.
  - intros H0 H1. unfold spawn_sparkle. cbn [s_maxLife]. split; lra.
Qed.

Lemma sparkles_loop_keeps_glows_witness :
  Forall (fun p => glow_ok p /\ s_life p < s_maxLife p)
    (fst (sparkles_loop
            (mkFrame 1 false false true 0.5 None None (fun _ => (0, 0)) [])
            [spawn_sparkle 800 600 0.1 0.2 0.3 0.4; mkSparkle 1 1 30 0.4 99 100]
            (mkCtx 1 []))).
Proof.
  apply (sparkles_loop_keeps_glows _ _ _ 800 600 0.1 0.2 0.3 0.4);
    cbn [normHigh]; [lra|lra|].
  constructor; [unfold glow_ok; simpl; repeat split; lra|].
  constructor; [unfold glow_ok; simpl; repeat split; lra|constructor].
Defined.

(** ** Colours *)

(** The hue sector ([h] before the division by 6) of three channels that
    are not all equal lies in [0, 6). *)
Lemma quotient_range (x d : Q) :
  0 < d -> - d <= x -> x <= d -> -1 <= x / d /\ x / d <= 1.
Proof.
  intros Hd Hlo Hhi. split.
  - apply Qle_shift_div_l; [exact Hd|lra].
  - apply Qle_shift_div_r; [exact Hd|lra].
Qed.

Lemma quotient_sign (x d : Q) :
  0 < d -> (0 <= x -> 0 <= x / d) /\ (x < 0 -> x / d < 0).
Proof.
  intros Hd. split; intros Hx.
  - apply Qle_shift_div_l; [exact Hd|lra].
  - apply Qlt_shift_div_r; [exact Hd|lra].
Qed.

Lemma hsl_channels (r g b : Q) :
  0 <= r -> r <= 1 -> 0 <= g -> g <= 1 -> 0 <= b -> b <= 1 ->
  let max := Qmax r (Qmax g b) in
  let min := Qmin r (Qmin g b) in
  0 <= min /\ min <= max /\ max <= 1 /\
  min <= r /\ r <= max /\ min <= g /\ g <= max /\ min <= b /\ b <= max.
Proof.
  intros Hr0 Hr1 Hg0 Hg1 Hb0 Hb1 max min. subst max min.
  destruct (Q.max_spec g b) as [[H1 E1]|[H1 E1]];
  destruct (Q.max_spec r (Qmax g b)) as [[H2 E2]|[H2 E2]];
  destruct (Q.min_spec g b) as [[H3 E3]|[H3 E3]];
  destruct (Q.min_spec r (Qmin g b)) as [[H4 E4]|[H4 E4]];
    rewrite E1 in *; rewrite E3 in *; rewrite E2, E4; repeat split; lra.
Qed.

Lemma channel_range (R : Z) :
  (0 <= R <= 255)%Z -> 0 <= inject_Z R / 255 /\ inject_Z R / 255 <= 1.
Proof.
  intros [H0 H1].
  assert (Ha : 0 <= inject_Z R)
    by (change 0 with (inject_Z 0); rewrite <- Zle_Qle; exact H0).
  assert (Hb : inject_Z R <= 255)
    by (change 255 with (inject_Z 255); rewrite <- Zle_Qle; exact H1).
  split; [apply Qle_shift_div_l|apply Qle_shift_div_r]; lra.
Qed.

(** X21: for channels between 0 and 255 [getBaseColor] returns a hue in
    [0, 360) and a saturation and a lightness in [0, 100]; a grey
    (three equal channels) has hue 0 and saturation 0; when the computed
    style holds no number the result is the neutral (0, 0, 50). *)
Theorem getBaseColor_range (R G B : Z) :
  (0 <= R <= 255)%Z -> (0 <= G <= 255)%Z -> (0 <= B <= 255)%Z ->
  (0 <= hsl_h (getBaseColor (Some (R, G, B))) /\
   hsl_h (getBaseColor (Some (R, G, B))) < 360) /\
  (0 <= hsl_s (getBaseColor (Some (R, G, B))) /\
   hsl_s (getBaseColor (Some (R, G, B))) <= 100) /\
  (0 <= hsl_l (getBaseColor (Some (R, G, B))) /\
   hsl_l (getBaseColor (Some (R, G, B))) <= 100) /\
  (R = G -> G = B ->
   hsl_h (getBaseColor (Some (R, G, B))) == 0 /\
   hsl_s (getBaseColor (Some (R, G, B))) == 0) /\
  getBaseColor None = mkHSL 0 0 50.
Proof.
  intros HR HG HB.
  destruct (channel_range R HR) as [Hr0 Hr1].
  destruct (channel_range G HG) as [Hg0 Hg1].
  destruct (channel_range B HB) as [Hb0 Hb1].
  assert (Hgrey : R = G -> G = B ->
                  Qmax (inject_Z R / 255) (Qmax (inject_Z G / 255) (inject_Z B / 255))
                  == Qmin (inject_Z R / 255)
                          (Qmin (inject_Z G / 255) (inject_Z B / 255))).
  { intros -> ->. rewrite !Q.max_id, !Q.min_id. reflexivity. }
  unfold getBaseColor. cbv zeta.
  generalize dependent (inject_Z B / 255). intros b Hb0 Hb1.
  generalize dependent (inject_Z G / 255). intros g Hg0 Hg1.
  generalize dependent (inject_Z R / 255). intros r Hr0 Hr1 Hgrey.
  pose proof (hsl_channels r g b Hr0 Hr1 Hg0 Hg1 Hb0 Hb1) as Hc.
  cbv zeta in Hc.
  destruct Hc as (Hmn0 & Hmnmx & Hmx1 & Hrlo & Hrhi & Hglo & Hghi & Hblo & Hbhi).
  set (mx := Qmax r (Qmax g b)) in *. set (mn := Qmin r (Qmin g b)) in *.
  clearbody mx mn.
  assert (Ehalf : (mx + mn) / 2 == (mx + mn) * (1 # 2)) by reflexivity.
  assert (Hl : 0 <= (mx + mn) / 2 * 100 /\ (mx + mn) / 2 * 100 <= 100)
    by (rewrite Ehalf; split; lra).
  destruct (Qeq_bool mx mn) eqn:Eq; cbn [hsl_h hsl_s hsl_l].
  { repeat split; try lra; reflexivity. }
  apply Qeq_bool_false in Eq.
  assert (Hd : 0 < mx - mn) by lra.
  split; [|split; [|split; [exact Hl|split; [|reflexivity]]]].
  - assert (Hsector :
      0 <= (if Qeq_bool mx r then (g - b) / (mx - mn) + (if Qltb g b then 6 else 0)
            else if Qeq_bool mx g then (b - r) / (mx - mn) + 2
            else if Qeq_bool mx b then (r - g) / (mx - mn) + 4 else 0) /\
      (if Qeq_bool mx r then (g - b) / (mx - mn) + (if Qltb g b then 6 else 0)
       else if Qeq_bool mx g then (b - r) / (mx - mn) + 2
       else if Qeq_bool mx b then (r - g) / (mx - mn) + 4 else 0) < 6).
    { destruct (Qeq_bool mx r) eqn:E1.
      - apply Qeq_bool_iff in E1.
        destruct (quotient_range (g - b) (mx - mn) Hd) as [Hq0 Hq1]; [lra..|].
        destruct (quotient_sign (g - b) (mx - mn) Hd) as [Hs0 Hs1].
        destruct (Qltb g b) eqn:E2.
        + apply Qltb_lt in E2. specialize (Hs1 ltac:(lra)). split; lra.
        + apply Qltb_ge in E2. specialize (Hs0 ltac:(lra)). split; lra.
      - destruct (Qeq_bool mx g) eqn:E2.
        + destruct (quotient_range (b - r) (mx - mn) Hd) as [Hq0 Hq1]; [lra..|].
          split; lra.
        + destruct (Qeq_bool mx b) eqn:E3; [|split; lra].
          destruct (quotient_range (r - g) (mx - mn) Hd) as [Hq0 Hq1]; [lra..|].
          split; lra. }
    destruct Hsector as [Hs0 Hs1].
    match goal with |- 0 <= ?h / 6 * 360 /\ _ =>
      assert (E6 : h / 6 == h * (1 # 6)) by reflexivity;
      generalize dependent h
    end.
    intros sector Hs0 Hs1 E6. rewrite E6. split; lra.
  - destruct (Qltb 0.5 ((mx + mn) / 2)) eqn:El.
    + apply Qltb_lt in El. rewrite Ehalf in El.
      assert (Hden : 0 < 2 - mx - mn) by lra.
      assert (0 <= (mx - mn) / (2 - mx - mn) /\ (mx - mn) / (2 - mx - mn) <= 1)
        by (split; [apply Qle_shift_div_l|apply Qle_shift_div_r]; lra).
      split; lra.
    + apply Qltb_ge in El. rewrite Ehalf in El.
      assert (Hden : 0 < mx + mn) by lra.
      assert (0 <= (mx - mn) / (mx + mn) /\ (mx - mn) / (mx + mn) <= 1)
        by (split; [apply Qle_shift_div_l|apply Qle_shift_div_r]; lra).
      split; lra.
  - intros H1 H2. specialize (Hgrey H1 H2). contradiction.
Qed.

Lemma getBaseColor_range_witness :
  (0 <= hsl_h (getBaseColor (Some (74, 222, 128)%Z)) /\
   hsl_h (getBaseColor (Some (74, 222, 128)%Z)) < 360) /\
  (0 <= hsl_s (getBaseColor (Some (74, 222, 128)%Z)) /\
   hsl_s (getBaseColor (Some (74, 222, 128)%Z)) <= 100) /\
  (0 <= hsl_l (getBaseColor (Some (74, 222, 128)%Z)) /\
   hsl_l (getBaseColor (Some (74, 222, 128)%Z)) <= 100).
Proof.
  destruct (getBaseColor_range 74 222 128) as (Hh & Hs & Hl & _);
    [lia|lia|lia|].
  auto.
Defined.

Lemma Qtrunc_floor q : 0 <= q -> Qtrunc q = Qfloor q.
Proof.
  intros Hq. destruct q as [n d]. unfold Qtrunc, Qfloor. simpl.
  apply Z.quot_div_nonneg; [|lia].
  unfold Qle in Hq. simpl in Hq. lia.
Qed.

(** The remainder of a non-negative number by a positive one. *)
Lemma js_rem_range a b :
  0 <= a -> 0 < b ->
  0 <= js_rem a b /\ js_rem a b < b /\
  js_rem a b == a - b * inject_Z (Qfloor (a / b)) /\
  (0 <= Qfloor (a / b))%Z.
Proof.
  intros Ha Hb. unfold js_rem.
  assert (Hq : 0 <= a / b) by (apply Qle_shift_div_l; lra).
  rewrite (Qtrunc_floor _ Hq).
  pose proof (Qfloor_le (a / b)) as Hlo.
  pose proof (Qlt_floor (a / b)) as Hhi.
  rewrite inject_Z_plus in Hhi. change (inject_Z 1) with 1 in Hhi.
  assert (Hk : (0 <= Qfloor (a / b))%Z).
  { change 0%Z with (Qfloor 0). apply Qfloor_resp_le. exact Hq. }
  assert (Eab : a == a / b * b) by (field; lra).
  split; [|split; [|split; [reflexivity|exact Hk]]].
  - generalize dependent (inject_Z (Qfloor (a / b))). intros fl Hlo Hhi.
    generalize dependent (a / b). intros q Hq Eab Hlo Hhi. nra.
  - generalize dependent (inject_Z (Qfloor (a / b))). intros fl Hlo Hhi.
    generalize dependent (a / b). intros q Hq Eab Hlo Hhi. nra.
Qed.

Lemma bar_fraction (i : nat) :
  inject_Z (Z.of_nat i) / inject_Z (Z.of_nat barsToRender)
  == inject_Z (Z.of_nat i) * (1 # 64).
Proof. reflexivity. Qed.

(** X22: for each of the 64 bars the rainbow hue is 5 degrees times the
    bar index, hence at most 315; the custom hue of a base hue in
    [0, 360) lies in [0, 360) and equals the base hue shifted by between
    -10 and +10 degrees, wrapped once around the circle when the shifted
    hue is negative or reaches 360; the glow lightness never exceeds
    100. *)
Theorem bar_hues (base : HSL) (i : nat) :
  (i < 64)%nat -> 0 <= hsl_h base -> hsl_h base < 360 ->
  (rainbow_hue i == 5 * inject_Z (Z.of_nat i) /\ rainbow_hue i <= 315) /\
  (0 <= custom_hue base i /\ custom_hue base i < 360) /\
  (exists shift, -10 <= shift /\ shift < 10 /\
     (custom_hue base i == hsl_h base + shift \/
      custom_hue base i == hsl_h base + shift + 360 \/
      custom_hue base i == hsl_h base + shift - 360)) /\
  custom_glow_lightness base <= 100.
Proof.
  intros Hi Hh0 Hh1.
  assert (Hq0 : 0 <= inject_Z (Z.of_nat i)) by apply inject_nat_nonneg.
  assert (Hq1 : inject_Z (Z.of_nat i) <= 63)
    by (change 63 with (inject_Z 63); rewrite <- Zle_Qle; lia).
  pose proof (bar_fraction i) as Ef.
  split; [|split; [|split]].
  - unfold rainbow_hue. rewrite Ef. split; [ring|lra].
  - unfold custom_hue. cbv zeta.
    change (inject_Z (Z.of_nat i) / inject_Z (Z.of_nat barsToRender))
      with (inject_Z (Z.of_nat i) * (1 # 64)).
    destruct (js_rem_range (hsl_h base + (inject_Z (Z.of_nat i) * (1 # 64) * 20 - 10) + 360) 360)
      as (H0 & H1 & _); [lra|lra|]. split; assumption.
  - exists (inject_Z (Z.of_nat i) * (1 # 64) * 20 - 10).
    split; [lra|]. split; [lra|].
    unfold custom_hue. cbv zeta.
    change (inject_Z (Z.of_nat i) / inject_Z (Z.of_nat barsToRender))
      with (inject_Z (Z.of_nat i) * (1 # 64)).
    set (shift := inject_Z (Z.of_nat i) * (1 # 64) * 20 - 10).
    assert (Hs : -10 <= shift /\ shift < 10) by (unfold shift; split; lra).
    clearbody shift.
    destruct (js_rem_range (hsl_h base + shift + 360) 360)
      as (H0 & H1 & E & Hk); [lra|lra|].
    rewrite E.
    assert (Hfl : (Qfloor ((hsl_h base + shift + 360) / 360) = 0
                   \/ Qfloor ((hsl_h base + shift + 360) / 360) = 1
                   \/ Qfloor ((hsl_h base + shift + 360) / 360) = 2
                   \/ 3 <= Qfloor ((hsl_h base + shift + 360) / 360))%Z) by lia.
    rewrite E in H0, H1.
    destruct Hfl as [Hf|[Hf|[Hf|Hf]]].
    + rewrite Hf in *. right; left. change (inject_Z 0) with 0. ring.
    + rewrite Hf in *. left. change (inject_Z 1) with 1. ring.
    + rewrite Hf in *. right; right. change (inject_Z 2) with 2. ring.
    + exfalso. rewrite Zle_Qle in Hf. change (inject_Z 3) with 3 in Hf.
      generalize dependent (inject_Z (Qfloor ((hsl_h base + shift + 360) / 360))).
      intros fl H0 H1 Hf. lra.
  - unfold custom_glow_lightness. apply Q.le_min_l.
Qed.

Lemma bar_hues_witness :
  (0 <= custom_hue (mkHSL 355 50 50) 63 /\
   custom_hue (mkHSL 355 50 50) 63 < 360) /\
  rainbow_hue 63 <= 315.
Proof.
  destruct (bar_hues (mkHSL 355 50 50) 63) as ((_ & Hr) & Hc & _);
    [lia|simpl; lra|simpl; lra|].
  split; assumption.
Defined.

(** * Further properties of the player chrome *)

(** ** The time display *)





(** ** The progress bar *)

(** X27: the progress bar never divides by a duration that is zero or
    negative (it shows 0), and for a time between 0 and a positive
    duration the played share lies between 0 and 100 percent, reaching
    100 exactly at the end. *)
Theorem progress_percent_range (currentTime duration : Q) :
  (duration <= 0 -> progress_percent currentTime duration = 0) /\
  (0 < duration -> 0 <= currentTime -> currentTime <= duration ->
   0 <= progress_percent currentTime duration /\
   progress_percent currentTime duration <= 100 /\
   (progress_percent currentTime duration == 100 <-> currentTime == duration)).
Proof.
  unfold progress_percent. split.
  - intros H. apply Qltb_ge in H. rewrite H. reflexivity.
  - intros Hd H0 H1. apply Qltb_lt in Hd as Hb. rewrite Hb.
    assert (Hq : 0 <= currentTime / duration /\ currentTime / duration <= 1)
      by (split; [apply Qle_shift_div_l|apply Qle_shift_div_r]; lra).
    assert (E : currentTime == currentTime / duration * duration)
      by (field; lra).
    generalize dependent (currentTime / duration). intros q Hq E.
    split; [lra|]. split; [lra|]. split; intros H; nra.
Qed.

Lemma progress_percent_range_witness :
  progress_percent 7 0 = 0 /\
  0 <= progress_percent 30 120 /\ progress_percent 30 120 <= 100.
Proof.
  split.
  - apply (progress_percent_range 7 0). lra.
  - destruct (progress_percent_range 30 120) as [_ H].
    destruct H as (H0 & H1 & _); [lra|lra|lra|]. split; assumption.
Defined.

(** ** Reading the text of an LRC file *)

Lemma digit_value_range c : is_digit c = true -> (0 <= digit_value c <= 9)%Z.
Proof.
  unfold is_digit, digit_value. rewrite andb_true_iff, !Nat.leb_le. lia.
Qed.

Lemma match_here_stamp l mm ss ff rest :
  match_here l = Some (mm, ss, ff, rest) -> stamp_ok mm ss ff.
Proof.
  unfold match_here.
  destruct l as [|b [|m1 [|m2 [|c [|s1 [|s2 [|d [|f1 [|f2 tl]]]]]]]]];
    try discriminate.
  destruct (Ascii.eqb b "[" && is_digit m1 && is_digit m2 && Ascii.eqb c ":"
            && is_digit s1 && is_digit s2 && Ascii.eqb d "."
            && is_digit f1 && is_digit f2) eqn:E; [|discriminate].
  repeat (apply andb_true_iff in E as [E ?]).
  destruct tl as [|f3 tl']; [discriminate|].
  destruct (is_digit f3) eqn:E3.
  - destruct tl' as [|e tl'']; [discriminate|].
    destruct (Ascii.eqb e "]"); [|discriminate].
    intros [= <- <- <- <-]. unfold stamp_ok. split; [eauto|]. split; [eauto|].
    right. exists f1, f2, f3. auto.
  - destruct (Ascii.eqb f3 "]"); [|discriminate].
    intros [= <- <- <- <-]. unfold stamp_ok. split; [eauto|]. split; [eauto|].
    left. eauto.
Qed.

Lemma regex_exec_stamp l mm ss ff rest :
  regex_exec l = Some (mm, ss, ff, rest) -> stamp_ok mm ss ff.
Proof.
  induction l as [|c l IH]; cbn [regex_exec].
  - destruct (match_here []) eqn:E; [|discriminate].
    intros [= ->]. exact (match_here_stamp _ _ _ _ _ E).
  - destruct (match_here (c :: l)) eqn:E; [|exact IH].
    intros [= ->]. exact (match_here_stamp _ _ _ _ _ E).
Qed.




Lemma stamp_time_range mm ss ff :
  stamp_ok mm ss ff ->
  (0 <= parseInt_digits mm <= 99)%Z /\ (0 <= parseInt_digits ss <= 99)%Z /\
  exists ms : Z, (0 <= ms <= 999)%Z /\
                 parseFloat_fraction ff == inject_Z ms / 1000.
Proof.
  intros ((m1 & m2 & -> & Hm1 & Hm2) & (s1 & s2 & -> & Hs1 & Hs2) & Hff).
  apply digit_value_range in Hm1, Hm2, Hs1, Hs2.
  unfold parseInt_digits. cbn [fold_left].
  split; [lia|]. split; [lia|].
  destruct Hff as [(f1 & f2 & -> & Hf1 & Hf2)|(f1 & f2 & f3 & -> & Hf1 & Hf2 & Hf3)].
  - apply digit_value_range in Hf1, Hf2.
    exists (10 * (10 * (10 * 0 + digit_value f1) + digit_value f2))%Z.
    split; [lia|]. unfold parseFloat_fraction, parseInt_digits.
    cbn [fold_left length]. change (10 ^ Z.of_nat 2)%Z with 100%Z.
    rewrite (inject_Z_mult 10). change (inject_Z 10) with 10.
    change (inject_Z 100) with 100.
    generalize (inject_Z (10 * (10 * 0 + digit_value f1) + digit_value f2)).
    intros v. field.
  - apply digit_value_range in Hf1, Hf2, Hf3.
    exists (10 * (10 * (10 * 0 + digit_value f1) + digit_value f2)
            + digit_value f3)%Z.
    split; [lia|]. unfold parseFloat_fraction, parseInt_digits.
    cbn [fold_left length]. change (10 ^ Z.of_nat 3)%Z with 1000%Z.
    reflexivity.
Qed.



(** * Further properties of the background layer *)

(** X25: while playing, a tick leaves every blob of size s >= 0 within
    [-s, width + s] horizontally and [-s, height + s] vertically, whatever
    its drift, with its size and velocity unchanged; while paused a blob
    does not move.  For a bass energy in [0, 1] it is painted with an
    opacity between 0.25 and 0.4 and a radius between s and 1.3 s. *)
Theorem blob_step_stays_near_view (sin cos : Q -> Q) (normBass width height : Q)
  (blob : Blob) :
  0 <= b_size blob -> 0 <= width -> 0 <= height ->
  (- b_size blob <= b_x (blob_step sin cos true normBass width height blob) /\
   b_x (blob_step sin cos true normBass width height blob)
   <= width + b_size blob) /\
  (- b_size blob <= b_y (blob_step sin cos true normBass width height blob) /\
   b_y (blob_step sin cos true normBass width height blob)
   <= height + b_size blob) /\
  b_size (blob_step sin cos true normBass width height blob) = b_size blob /\
  b_vx (blob_step sin cos true normBass width height blob) = b_vx blob /\
  b_vy (blob_step sin cos true normBass width height blob) = b_vy blob /\
  blob_step sin cos false normBass width height blob = blob /\
  (0 <= normBass -> normBass <= 1 ->
   (0.25 <= blob_opacity normBass /\ blob_opacity normBass <= 0.4) /\
   (b_size blob <= blob_currentSize normBass blob /\
    blob_currentSize normBass blob <= 1.3 * b_size blob)).
Proof.
  intros Hs Hw Hh. unfold blob_step. cbv zeta.
  cbn [b_x b_y b_size b_vx b_vy].
  set (x := b_x blob + _). set (y := b_y blob + _). clearbody x y.
  split; [|split; [|repeat split; try reflexivity]].
  - destruct (Qltb x (- b_size blob)) eqn:E1.
    + destruct (Qltb (width + b_size blob) (width + b_size blob)) eqn:E2.
      * apply Qltb_lt in E2. lra.
      * split; lra.
    + apply Qltb_ge in E1.
      destruct (Qltb (width + b_size blob) x) eqn:E2.
      * split; lra.
      * apply Qltb_ge in E2. split; lra.
  - destruct (Qltb y (- b_size blob)) eqn:E1.
    + destruct (Qltb (height + b_size blob) (height + b_size blob)) eqn:E2.
      * apply Qltb_lt in E2. lra.
      * split; lra.
    + apply Qltb_ge in E1.
      destruct (Qltb (height + b_size blob) y) eqn:E2.
      * split; lra.
      * apply Qltb_ge in E2. split; lra.
  - unfold blob_opacity. lra.
  - unfold blob_opacity. lra.
  - unfold blob_currentSize. nra.
  - unfold blob_currentSize. nra.
Qed.

Lemma blob_step_stays_near_view_witness :
  - 300 <= b_x (blob_step (fun _ => 1) (fun _ => 0) true 0.5 800 600
                          (mkBlob 1099 10 1.5 0 300 0)) /\
  b_x (blob_step (fun _ => 1) (fun _ => 0) true 0.5 800 600
                 (mkBlob 1099 10 1.5 0 300 0)) <= 800 + 300.
Proof.
  apply (blob_step_stays_near_view (fun _ => 1) (fun _ => 0) 0.5 800 600
           (mkBlob 1099 10 1.5 0 300 0)); simpl; lra.
Defined.

(** X26: the background blobs take their colour only from a theme colour
    written as ['#'] and six more characters; the theme colour taken from
    a cover image is written [rgb(r,g,b)], so after a cover is loaded the
    blobs are painted white whatever the image, and in the fallback
    colour's own tint only when reading the image fails. *)
Theorem cover_colour_paints_blobs_white (hex : string -> Z * Z * Z)
  (r g b : Z) :
  blob_rgb hex (extractColorFromImage (Some (r, g, b))) = (255, 255, 255)%Z /\
  blob_rgb hex (extractColorFromImage None) = hex "#4ade80" /\
  (forall color, String.prefix "#" color = false ->
                 blob_rgb hex color = (255, 255, 255)%Z).
Proof.
  split; [|split].
  - reflexivity.
  - reflexivity.
  - intros color H. unfold blob_rgb. rewrite H. reflexivity.
Qed.

(** * Further properties of the playback clock *)

(** X28: starting from a clock whose shown time is the last recorded
    time, or is 0 with a last recorded time within 5 ms of 0, every run
    of [animate] keeps that condition and leaves the shown time within
    10 ms of the audio time, and within 5 ms when the shown time was the
    last recorded one. *)
Theorem animate_follows_audio (time : Q) (c : Clock) :
  (shown c = lastTime c \/ (shown c = 0 /\ Qabs (lastTime c) <= 0.005)) ->
  (shown (animate time c) = lastTime (animate time c) \/
   (shown (animate time c) = 0 /\ Qabs (lastTime (animate time c)) <= 0.005)) /\
  Qabs (time - shown (animate time c)) <= 0.01 /\
  (shown c = lastTime c -> Qabs (time - shown (animate time c)) <= 0.005).
Proof.
  intros Hinv. unfold animate.
  destruct (Qltb 0.005 (Qabs (time - lastTime c))) eqn:E1; cbn [shown lastTime].
  - assert (Et : time - time == 0) by ring.
    assert (E0 : Qabs (time - time) == 0) by (rewrite Et; reflexivity).
    split; [left; reflexivity|]. rewrite E0. split; [lra|intros _; lra].
  - apply Qltb_ge in E1.
    destruct (Qeq_bool time 0) eqn:E2; cbn [shown lastTime].
    + apply Qeq_bool_iff in E2.
      assert (Et : time - 0 == 0) by (rewrite E2; ring).
      assert (E0 : Qabs (time - 0) == 0) by (rewrite Et; reflexivity).
      split; [right; split; [reflexivity|]|rewrite E0; split; [lra|intros _; lra]].
      assert (El : lastTime c == - (time - lastTime c)) by (rewrite E2; ring).
      rewrite El, Qabs_opp. exact E1.
    + split; [exact Hinv|]. split.
      * destruct Hinv as [->|[-> Hl]]; [lra|].
        assert (Es : time - 0 == (time - lastTime c) + lastTime c) by ring.
        rewrite Es.
        eapply Qle_trans; [apply Qabs_triangle|]. lra.
      * intros ->. exact E1.
Qed.

Lemma animate_follows_audio_witness :
  Qabs (3.004 - shown (animate 3.004 (mkClock 3 3))) <= 0.01 /\
  Qabs (3.004 - shown (animate 3.004 (mkClock 3 3))) <= 0.005.
Proof.
  destruct (animate_follows_audio 3.004 (mkClock 3 3)) as (_ & H1 & H2);
    [left; reflexivity|].
  split; [exact H1|apply H2; reflexivity].
Defined.

(** * Further properties of the bars and of the whole lyric pipeline *)

(** X29: for a buffer of at least one bin every bar reads a bin of the
    lower half of the spectrum, in range: the index of bar i is i times
    the whole part of bufferLength / 128, it is not negative and twice it
    is below bufferLength, for each of the 64 bars. *)
Theorem dataIndex_in_lower_half (bufferLength : Z) (i : nat) :
  (1 <= bufferLength)%Z -> (i < 64)%nat ->
  dataIndex bufferLength i = (Z.of_nat i * (bufferLength / 128))%Z /\
  (0 <= dataIndex bufferLength i)%Z /\
  (2 * dataIndex bufferLength i < bufferLength)%Z.
Proof.
  intros HB Hi.
  assert (Hstep : bin_step bufferLength = (bufferLength / 128)%Z).
  { unfold bin_step. rewrite (Zdiv_Qdiv bufferLength 128).
    apply Qfloor_comp. change (inject_Z (Z.of_nat barsToRender)) with 64.
    change (inject_Z 128) with 128. field. }
  assert (Hidx : dataIndex bufferLength i
                 = (Z.of_nat i * (bufferLength / 128))%Z).
  { unfold dataIndex. rewrite Hstep, <- inject_Z_mult. apply Qfloor_Z. }
  split; [exact Hidx|]. rewrite Hidx.
  pose proof (Z.div_pos bufferLength 128 ltac:(lia) ltac:(lia)) as Hq0.
  pose proof (Z.mul_div_le bufferLength 128 ltac:(lia)) as Hq1.
  split; nia.
Qed.

Lemma dataIndex_in_lower_half_witness :
  dataIndex 1024 63 = (Z.of_nat 63 * (1024 / 128))%Z /\
  (0 <= dataIndex 1024 63)%Z /\ (2 * dataIndex 1024 63 < 1024)%Z.
Proof.
  apply (dataIndex_in_lower_half 1024 63); lia.
Defined.

Lemma parseLrc_loop_times temp :
  Forall (fun t => 0 <= t_time t /\ t_text t <> "") temp ->
  Forall (fun l => 0 <= time l /\ text l <> "") (parseLrc_loop temp).
Proof.
  induction 1 as [|t rest [Ht Hx] _ IH]; [constructor|].
  cbn [parseLrc_loop]. apply Forall_app. split; [|exact IH].
  destruct (parseLrc_push_cases t (head rest))
    as [->|(n & g & Hn & Hg & Hgt & ->)].
  - constructor; [|constructor]. split; assumption.
  - constructor; [split; assumption|]. constructor; [|constructor].
    cbn [time text]. split; [lra|discriminate].
Qed.

(** X30: whatever the LRC text (and whatever [trim] does), every line
    [parseLrc] returns starts at a time that is not negative and has a
    text that is not empty, and [normalizeLyrics] keeps this; so at a
    negative effective time, as a negative offset gives at the start of a
    song, no line is active. *)
Theorem parsed_lyrics_start_at_zero (trim : string -> string)
  (lrcString : string) (T : Q) :
  Forall (fun l => 0 <= time l /\ text l <> "")
         (normalizeLyrics (parseLrc trim lrcString)) /\
  (T < 0 -> activeIndex (normalizeLyrics (parseLrc trim lrcString)) T = (-1)%Z).
Proof.
  assert (Hparsed : Forall (fun l => 0 <= time l /\ text l <> "")
                           (parseLrc trim lrcString)).
  { unfold parseLrc. apply parseLrc_loop_times.
    apply Forall_forall. intros t Ht.
    apply list_elem_of_omap in Ht as (line & _ & Hline).
    unfold parse_line in Hline.
    destruct (regex_exec (String.list_ascii_of_string line))
      as [[[[mm ss] ff] rest]|] eqn:E; [|discriminate].
    cbv zeta in Hline.
    destruct (String.eqb (trim (String.string_of_list_ascii rest)) "") eqn:Et;
      [discriminate|].
    injection Hline as <-. cbn [t_time t_text].
    destruct (stamp_time_range mm ss ff (regex_exec_stamp _ _ _ _ _ E))
      as (Hm & Hs & ms & Hms & Ems).
    rewrite Ems.
    assert (Hm0 : 0 <= inject_Z (parseInt_digits mm))
      by (change 0 with (inject_Z 0); rewrite <- Zle_Qle; lia).
    assert (Hs0 : 0 <= inject_Z (parseInt_digits ss))
      by (change 0 with (inject_Z 0); rewrite <- Zle_Qle; lia).
    assert (Hf0 : 0 <= inject_Z ms)
      by (change 0 with (inject_Z 0); rewrite <- Zle_Qle; lia).
    assert (Ediv : inject_Z ms / 1000 == inject_Z ms * (1 # 1000))
      by reflexivity.
    split; [rewrite Ediv; lra|].
    intros Hempty. rewrite Hempty in Et. discriminate. }
  assert (Hnorm : Forall (fun l => 0 <= time l /\ text l <> "")
                         (normalizeLyrics (parseLrc trim lrcString))).
  { apply Forall_lookup. intros i l. rewrite lookup_normalizeLyrics.
    destruct (parseLrc trim lrcString !! i) as [x|] eqn:Hx; [|discriminate].
    simpl. intros [= <-]. rewrite normalizeLine_time, normalizeLine_text.
    rewrite Forall_lookup in Hparsed. exact (Hparsed i x Hx). }
  split; [exact Hnorm|].
  intros HT. unfold activeIndex, findIndex.
  apply findIndex_from_none; [lia|]. intros i l Hl.
  apply (in_interval_normalized_false _ T i l Hl).
  intros (d & _ & Hle & _).
  rewrite Forall_lookup in Hnorm. destruct (Hnorm i l Hl) as [H0 _]. lra.
Qed.

Lemma parsed_lyrics_start_at_zero_witness :
  activeIndex
    (normalizeLyrics (parseLrc (fun s => s) "[00:00.00]a")) (-0.5) = (-1)%Z.
Proof.
  apply (parsed_lyrics_start_at_zero (fun s => s) "[00:00.00]a" (-0.5)).
  reflexivity.
Defined.
